(** * deck: a shallow embedding of card.go

    The Go package [deck] builds a sequence of playing cards and offers
    composable options ([func([]Card) []Card]) to sort, shuffle, filter,
    duplicate it or to add jokers.  This file embeds the package in Rocq
    and proves the properties its specification states.

    Conventions.
    - [Suit] and [Rank] are Go [uint8]: values of [Z] in [0, 256); the
      conversion [Rank(i)] of an [int] wraps modulo 256 ([uint8]).
    - a slice [[]Card] is a [list Card]; [append] is [++].
    - Go [int] counters and indices are [Z].
    - a Go function that may panic (an index out of range) returns
      [option]; [None] is the panic.
    - [sort.Slice] and [rand.Shuffle] belong to the Go standard library:
      they are parameters of the development, constrained by their
      documented contracts, and instantiated by concrete routines. *)

From Stdlib Require Import String Ascii.
From Stdlib Require Import ZArith List Lia Bool Permutation Sorted FinFun.
From Equations Require Import Equations.
Import ListNotations.

Local Open Scope Z_scope.

(** ** Entity model *)

(** [type Suit uint8], [type Rank uint8]. *)
Definition Suit := Z.
Definition Rank := Z.

(** Conversion of an [int] to [uint8]: the low eight bits. *)
Definition uint8 (x : Z) : Z := x mod 256.

(** [const ( Spade Suit = iota; Diamond; Club; Heart; Joker )] *)
Definition Spade : Suit := 0.
Definition Diamond : Suit := 1.
Definition Club : Suit := 2.
Definition Heart : Suit := 3.
Definition Joker : Suit := 4.

(** [var suits = [...]Suit{Spade, Diamond, Club, Heart}] *)
Definition suits : list Suit := [Spade; Diamond; Club; Heart].

(** [const ( _ Rank = iota; Ace; Two; ...; King )] *)
Definition Ace : Rank := 1.
Definition Two : Rank := 2.
Definition Three : Rank := 3.
Definition Four : Rank := 4.
Definition Five : Rank := 5.
Definition Six : Rank := 6.
Definition Seven : Rank := 7.
Definition Eight : Rank := 8.
Definition Nine : Rank := 9.
Definition Ten : Rank := 10.
Definition Jack : Rank := 11.
Definition Queen : Rank := 12.
Definition King : Rank := 13.

Definition minRank : Rank := Ace.
Definition maxRank : Rank := King.

(** [type Card struct { Suit; Rank }] *)
Record Card : Type := mkCard { cSuit : Suit; cRank : Rank }.

Definition Card_eq_dec (a b : Card) : {a = b} + {a <> b}.
Proof. decide equality; apply Z.eq_dec. Defined.

(** A card of one of the four iterated suits with a rank Ace..King. *)
Definition real_card (c : Card) : Prop :=
  Spade <= cSuit c <= Heart /\ minRank <= cRank c <= maxRank.

(** ** Panics: the option monad *)

Definition bind {A B : Type} (m : option A) (f : A -> option B) : option B :=
  match m with
  | Some a => f a
  | None => None
  end.

Notation "x <- m ;; k" := (bind m (fun x => k))
  (at level 61, m at next level, right associativity).

(** An option of [New]: a Go [func([]Card) []Card]. *)
Definition Option := list Card -> option (list Card).

(** An option that cannot panic. *)
Definition total (f : list Card -> list Card) : Option :=
  fun cards => Some (f cards).

(** ** New *)

(** What is left of the inner loop of [New] at [rank]. *)
Definition ranks_left (rank : Rank) : nat := Z.to_nat (maxRank + 1 - rank).
Arguments ranks_left : simpl never.

(** The inner loop of [New]:
    [for rank := minRank; rank <= maxRank; rank++ { cards = append(...) }].
    [rank] is a [uint8], so [rank++] wraps. *)
Equations? rank_loop (suit : Suit) (rank : Rank) (cards : list Card) : list Card
  by wf (ranks_left rank) lt :=
rank_loop suit rank cards with Z_le_gt_dec rank maxRank => {
  | left _ => rank_loop suit (uint8 (rank + 1)) (cards ++ [mkCard suit rank]);
  | right _ => cards }.
Proof.
  unfold ranks_left, uint8, maxRank, King in *.
  pose proof (Z.mod_pos_bound (rank + 1) 256 ltac:(lia)) as Hm.
  destruct (Z_lt_le_dec rank 0) as [Hneg | Hpos].
  - lia.
  - rewrite Z.mod_small by lia. lia.
Qed.

(** The outer loop, [for _, suit := range suits]. *)
Definition base_loop (cards : list Card) : list Card :=
  fold_left (fun cards suit => rank_loop suit minRank cards) suits cards.

(** [for _, opt := range opts { cards = opt(cards) }] *)
Definition apply_opts (opts : list Option) (cards : list Card)
  : option (list Card) :=
  fold_left (fun acc opt => cards <- acc ;; opt cards) opts (Some cards).

(** [func New(opts ...func([]Card) []Card) []Card] *)
Definition New (opts : list Option) : option (list Card) :=
  apply_opts opts (base_loop []).

(** ** Ranking functions *)

(** [int(c.Suit)*int(maxRank) + int(c.Rank)]: both operands come from a
    [uint8], so the [int] arithmetic cannot overflow. *)
Definition absRank (c : Card) : Z := cSuit c * maxRank + cRank c.

(** [((int(c.Rank) - 1) * len(suits)) + int(c.Suit)] *)
Definition rankThenSuit (c : Card) : Z :=
  (cRank c - 1) * Z.of_nat (length suits) + cSuit c.

(** ** Slices: indexing and assignment *)

(** [cards[i]]; Go panics when [i] is out of range. *)
Definition index (cards : list Card) (i : Z) : option Card :=
  if i <? 0 then None else nth_error cards (Z.to_nat i).

(** The slice after [cards[n] = x], for [n] in range. *)
Fixpoint update (cards : list Card) (n : nat) (x : Card) : list Card :=
  match cards, n with
  | [], _ => []
  | _ :: l, O => x :: l
  | y :: l, S n' => y :: update l n' x
  end.

(** [cards[i], cards[j] = cards[j], cards[i]]: both elements are read,
    then both are written. *)
Definition swap (cards : list Card) (i j : Z) : option (list Card) :=
  a <- index cards i ;;
  b <- index cards j ;;
  Some (update (update cards (Z.to_nat i) b) (Z.to_nat j) a).

(** ** Comparator factories

    A factory returns a closure [func(i, j int) bool] over the slice it
    was given.  [sort.Slice] permutes that very slice while it calls the
    closure, so the closure reads the current contents: a positional
    comparator is a function of the contents and of two positions. *)
Definition Less := list Card -> Z -> Z -> option bool.

(** [rankThenSuit(cards[i]) < rankThenSuit(cards[j])] *)
Definition ByRankThenBySuit : Less := fun cards i j =>
  a <- index cards i ;;
  b <- index cards j ;;
  Some (rankThenSuit a <? rankThenSuit b).

(** [absRank(cards[i]) < absRank(cards[j])] *)
Definition BySuitThenByRank : Less := fun cards i j =>
  a <- index cards i ;;
  b <- index cards j ;;
  Some (absRank a <? absRank b).

(** ** The contract of [sort.Slice]

    [sort.Slice(x, less)] sorts [x] in place given a [less] that is a
    strict weak ordering of the elements; the sort is not guaranteed to be
    stable.  The comparators of this package compare an integer key of the
    two cards. *)

(** [less] compares the [key] of the cards at the two positions. *)
Definition keyed (less : Less) (key : Card -> Z) : Prop :=
  forall cards i j a b,
    index cards i = Some a -> index cards j = Some b ->
    less cards i j = Some (key a <? key b).

Definition ordered_by (key : Card -> Z) (cards : list Card) : Prop :=
  StronglySorted (fun a b => key a <= key b) cards.

Definition Sorter := list Card -> Less -> option (list Card).

(** On a keyed comparator the routine returns, and the slice then holds
    the same cards in an order where no card sorts before an earlier one. *)
Definition sort_contract (sort_Slice : Sorter) : Prop :=
  forall less key cards,
    keyed less key ->
    exists out,
      sort_Slice cards less = Some out /\
      Permutation cards out /\
      ordered_by key out.


(** ** The contract of [rand.Shuffle]

    [r.Shuffle(n, swap)] calls [swap(i, j)] a number of times with
    positions of an [n]-element sequence; which ones is decided by the
    generator, that is by its seed. *)
Definition Shuffler := Z -> Z -> list (Z * Z).

Definition shuffle_contract (rand_Shuffle : Shuffler) : Prop :=
  forall seed n i j,
    In (i, j) (rand_Shuffle seed n) -> 0 <= i < n /\ 0 <= j < n.

(** ** Sorting options *)

Section Sorting.

Variable sort_Slice : Sorter.

(** [sort.Slice(cards, BySuitThenByRank(cards)); return cards] *)
Definition DefaultSort : Option := fun cards =>
  sort_Slice cards BySuitThenByRank.

(** [func Sort(less) func([]Card) []Card]:
    [sort.Slice(cards, less(cards)); return cards] *)
Definition Sort (less : Less) : Option := fun cards =>
  sort_Slice cards less.

End Sorting.

(** ** Shuffle *)

Section Shuffling.

Variable rand_Shuffle : Shuffler.

(** [r := rand.New(rand.NewSource(time.Now().UTC().UnixNano()))] then
    [r.Shuffle(len(cards), func(i, j int) { swap })].  [now] is what
    the clock reads, the seed of the generator. *)
Definition Shuffle (now : Z) : Option := fun cards =>
  fold_left (fun acc ij => cards <- acc ;; swap cards (fst ij) (snd ij))
            (rand_Shuffle now (Z.of_nat (length cards)))
            (Some cards).

End Shuffling.

(** ** Jokers, Filter, Deck *)

Definition turns_left (n i : Z) : nat := Z.to_nat (n - i).
Arguments turns_left : simpl never.

(** [for i := 0; i < n; i++ { cards = append(cards, Card{Joker, Rank(i)}) }] *)
Equations? jokers_loop (n i : Z) (cards : list Card) : list Card
  by wf (turns_left n i) lt :=
jokers_loop n i cards with Z_lt_ge_dec i n => {
  | left _ => jokers_loop n (i + 1) (cards ++ [mkCard Joker (uint8 i)]);
  | right _ => cards }.
Proof. unfold turns_left. lia. Qed.

(** [func Jokers(n int) func([]Card) []Card] *)
Definition Jokers (n : Z) : list Card -> list Card :=
  fun cards => jokers_loop n 0 cards.

(** [func Filter(f func(card Card) bool) func([]Card) []Card]:
    [ret := []Card{}; for _, card := range cards { if !f(card) { append } }] *)
Definition Filter (f : Card -> bool) : list Card -> list Card :=
  fun cards =>
    fold_left (fun ret card => if negb (f card) then ret ++ [card] else ret)
              cards [].

(** [for i := 0; i < n; i++ { ret = append(ret, cards...) }] *)
Equations? deck_loop (n i : Z) (cards ret : list Card) : list Card
  by wf (turns_left n i) lt :=
deck_loop n i cards ret with Z_lt_ge_dec i n => {
  | left _ => deck_loop n (i + 1) cards (ret ++ cards);
  | right _ => ret }.
Proof. unfold turns_left. lia. Qed.

(** [func Deck(n int) func([]Card) []Card] *)
Definition Deck (n : Z) : list Card -> list Card :=
  fun cards => deck_loop n 0 cards [].

(** ** Concrete library routines

    One routine for each contract, to run the options on actual decks. *)

(** Whether the first of two cards sorts before the second under [less]:
    the cards are laid out in a slice of their own. *)
Definition before (less : Less) (a b : Card) : bool :=
  match less [a; b] 0 1 with
  | Some r => r
  | None => false
  end.

(** [x] goes in front of the first card that does not sort before it. *)
Fixpoint insert (less : Less) (x : Card) (l : list Card) : list Card :=
  match l with
  | [] => [x]
  | y :: l' => if before less y x then y :: insert less x l' else x :: y :: l'
  end.

(** Insertion sort, the cards taken from the back of the slice: cards
    that compare equal keep the order they had, and a slice that is in
    order is returned as it is. *)
Definition insertion_sort : Sorter := fun cards less =>
  Some (fold_right (insert less) [] cards).

(** A linear congruential generator on 63 bits. *)
Definition lcg (seed : Z) : Z :=
  (seed * 6364136223846793005 + 1442695040888963407) mod 2 ^ 63.

(** Fisher-Yates: for [i] from [k] down to 1, swap position [i] with a
    drawn position [j <= i]. *)
Fixpoint fisher_yates_from (seed : Z) (k : nat) : list (Z * Z) :=
  match k with
  | O => []
  | S k' => (Z.of_nat k, lcg seed mod (Z.of_nat k + 1))
            :: fisher_yates_from (lcg seed) k'
  end.

Definition fisher_yates : Shuffler := fun seed n =>
  fisher_yates_from seed (Z.to_nat (n - 1)).

(** ** The deck of the specification *)

Definition ranks : list Rank :=
  [Ace; Two; Three; Four; Five; Six; Seven; Eight; Nine; Ten; Jack; Queen; King].

(** Suit by suit in the declared order, the ranks ascending in each. *)
Definition suit_major_deck : list Card :=
  flat_map (fun s => map (mkCard s) ranks) suits.

(** Rank by rank, the suits in the declared order in each. *)
Definition rank_major_deck : list Card :=
  flat_map (fun r => map (fun s => mkCard s r) suits) ranks.

(** The number of cards of [cards] that satisfy [p]. *)
Definition count (p : Card -> bool) (cards : list Card) : nat :=
  length (filter p cards).

(** ** Card.String

    [Suit.String] and [Rank.String] are generated ([go:generate stringer
    -type=Suit,Rank]); the generated file is not part of the sources, so
    the two label functions are parameters. *)

Section CardString.

Variable Suit_String : Suit -> string.
Variable Rank_String : Rank -> string.

(** [func (c Card) String() string]: the suit label alone for a joker,
    [fmt.Sprintf("%s of %ss", rank label, suit label)] otherwise. *)
Definition Card_String (c : Card) : string :=
  if cSuit c =? Joker
  then Suit_String (cSuit c)
  else (Rank_String (cRank c) ++ " of " ++ Suit_String (cSuit c) ++ "s")%string.

End CardString.

(** The identifiers of the declared constants as labels; a value that
    has no constant gets the empty label here. *)
Definition constant_name_of_Suit (s : Suit) : string :=
  nth (Z.to_nat s)
      ["Spade"; "Diamond"; "Club"; "Heart"; "Joker"]%string EmptyString.

Definition constant_name_of_Rank (r : Rank) : string :=
  nth (Z.to_nat r)
      [EmptyString; "Ace"; "Two"; "Three"; "Four"; "Five"; "Six"; "Seven";
       "Eight"; "Nine"; "Ten"; "Jack"; "Queen"; "King"]%string EmptyString.

(** No byte of the string is a space. *)
Fixpoint no_space (s : string) : bool :=
  match s with
  | EmptyString => true
  | String c s' => negb (Ascii.eqb c " ") && no_space s'
  end.

(** ** Vocabulary of the properties *)

(** Adjacent cards are in order of [key]. *)
Fixpoint ascending (key : Card -> Z) (cards : list Card) : bool :=
  match cards with
  | [] => true
  | a :: l => match l with
              | [] => true
              | b :: _ => (key a <=? key b) && ascending key l
              end
  end.

(** Distinct cards of [cards] have distinct keys. *)
Definition tells_apart (key : Card -> Z) (cards : list Card) : Prop :=
  forall a b, In a cards -> In b cards -> key a = key b -> a = b.

(** The cards [Jokers(n)] appends: suit Joker, ranks [Rank(0)],
    [Rank(1)], ... *)
Definition jokers (n : Z) : list Card :=
  map (fun k => mkCard Joker (uint8 (Z.of_nat k))) (seq 0 (Z.to_nat n)).

(** [n] copies of [cards], one after the other. *)
Definition copies (n : nat) (cards : list Card) : list Card :=
  concat (repeat cards n).

(** The first sequence is the second with some cards left out. *)
Inductive subsequence : list Card -> list Card -> Prop :=
| subsequence_nil : subsequence [] []
| subsequence_keep c l1 l2 :
    subsequence l1 l2 -> subsequence (c :: l1) (c :: l2)
| subsequence_drop c l1 l2 :
    subsequence l1 l2 -> subsequence l1 (c :: l2).

(** What [sort.Slice] asks of its [less]: it ranks the positions of the
    slice as a strict weak ordering.  Out of the slice the comparator
    panics. *)
Definition strict_weak_positional (less : Less) : Prop :=
  forall cards i j k,
    (less cards i j = None <->
     ~ (0 <= i < Z.of_nat (length cards) /\ 0 <= j < Z.of_nat (length cards))) /\
    less cards i i <> Some true /\
    (less cards i j = Some true -> less cards j i = Some false) /\
    (less cards i j = Some true -> less cards j k = Some true ->
     less cards i k = Some true) /\
    (less cards i j = Some false -> less cards j i = Some false ->
     less cards j k = Some false -> less cards k j = Some false ->
     less cards i k = Some false /\ less cards k i = Some false).

(** [f] of Go: [c.Suit == Joker]. *)
Definition is_joker (c : Card) : bool := cSuit c =? Joker.

(** * Properties *)

(** ** New *)

Lemma In_suits (s : Suit) : In s suits <-> Spade <= s <= Heart.
Proof.
  unfold suits, Spade, Diamond, Club, Heart; simpl. lia.
Qed.

Lemma In_ranks (r : Rank) : In r ranks <-> minRank <= r <= maxRank.
Proof.
  unfold ranks, minRank, maxRank, Ace, Two, Three, Four, Five, Six, Seven,
    Eight, Nine, Ten, Jack, Queen, King; simpl. lia.
Qed.

Lemma In_suit_major_deck (c : Card) : In c suit_major_deck <-> real_card c.
Proof.
  unfold suit_major_deck, real_card. rewrite in_flat_map. split.
  - intros (s & Hs & Hc). apply in_map_iff in Hc as (r & <- & Hr). simpl.
    now rewrite <- In_suits, <- In_ranks.
  - intros [Hs Hr]. exists (cSuit c). split; [now apply In_suits |].
    apply in_map_iff. exists (cRank c). split; [now destruct c |].
    now apply In_ranks.
Qed.

Lemma base_loop_nil : base_loop [] = suit_major_deck.
Proof. reflexivity. Qed.

Lemma NoDup_suit_major_deck : NoDup suit_major_deck.
Proof.
  apply (NoDup_map_inv absRank).
  change (map absRank suit_major_deck) with (map Z.of_nat (seq 1 52)).
  apply Injective_map_NoDup; [exact Nat2Z.inj | apply seq_NoDup].
Qed.

Lemma apply_opts_app (ts : list Option) (t : Option) (cards : list Card) :
  apply_opts (ts ++ [t]) cards = (out <- apply_opts ts cards ;; t out).
Proof. unfold apply_opts. now rewrite fold_left_app. Qed.

Lemma apply_opts_None (ts : list Option) :
  fold_left (fun acc opt => cards <- acc ;; opt cards) ts None = None.
Proof. induction ts as [| t ts IH]; simpl; auto. Qed.

Lemma apply_opts_cons (t : Option) (ts : list Option) (cards : list Card) :
  apply_opts (t :: ts) cards = (out <- t cards ;; apply_opts ts out).
Proof.
  unfold apply_opts; simpl. destruct (t cards) as [out |]; simpl; auto.
  apply apply_opts_None.
Qed.

Lemma apply_opts_total (fs : list (list Card -> list Card)) (cards : list Card) :
  apply_opts (map total fs) cards = Some (fold_left (fun c f => f c) fs cards).
Proof.
  revert cards. induction fs as [| f fs IH]; intros cards; [reflexivity |].
  simpl map. rewrite apply_opts_cons. unfold total at 1; simpl. apply IH.
Qed.

(** C1. [New()] is the 52-card sequence of the nested iteration over the
    suits Spade, Diamond, Club, Heart and, within each, the ranks
    Ace..King ascending: one card for each pair of a real suit and a
    rank, no card twice, no card of suit Joker, thirteen cards of each
    suit and four of each rank.  [New(ts...)] runs the options in the
    order given, each on the result of the one before. *)
Theorem New_canonical_then_options_in_order :
  New [] = Some suit_major_deck /\
  length suit_major_deck = 52%nat /\
  NoDup suit_major_deck /\
  (forall c, In c suit_major_deck <-> real_card c) /\
  (forall c, In c suit_major_deck -> cSuit c <> Joker) /\
  (forall s, In s suits ->
     count (fun c => cSuit c =? s) suit_major_deck = 13%nat) /\
  (forall r, In r ranks ->
     count (fun c => cRank c =? r) suit_major_deck = 4%nat) /\
  (forall t ts, New (t :: ts) = (cards <- t suit_major_deck ;; apply_opts ts cards)) /\
  (forall ts t, New (ts ++ [t]) = (cards <- New ts ;; t cards)) /\
  (forall fs, New (map total fs) =
              Some (fold_left (fun cards f => f cards) fs suit_major_deck)).
Proof.
  unfold New. rewrite base_loop_nil.
  split; [reflexivity |].
  split; [reflexivity |].
  split; [exact NoDup_suit_major_deck |].
  split; [exact In_suit_major_deck |].
  split.
  { intros c Hc. apply In_suit_major_deck in Hc as [Hs _].
    unfold Joker, Heart in *. lia. }
  split.
  { intros s Hs. simpl in Hs. repeat destruct Hs as [<- | Hs]; try reflexivity.
    contradiction. }
  split.
  { intros r Hr. simpl in Hr. repeat destruct Hr as [<- | Hr]; try reflexivity.
    contradiction. }
  split; [intros; apply apply_opts_cons |].
  split; [intros; apply apply_opts_app |].
  intros; apply apply_opts_total.
Qed.

(** ** Ranking functions *)

Lemma absRank_lt (c1 c2 : Card) :
  real_card c1 -> real_card c2 ->
  (absRank c1 < absRank c2 <->
   cSuit c1 < cSuit c2 \/ (cSuit c1 = cSuit c2 /\ cRank c1 < cRank c2)).
Proof.
  unfold real_card, absRank, minRank, maxRank, Ace, King. lia.
Qed.

Lemma absRank_inj (c1 c2 : Card) :
  real_card c1 -> real_card c2 -> absRank c1 = absRank c2 -> c1 = c2.
Proof.
  destruct c1 as [s1 r1], c2 as [s2 r2].
  unfold real_card, absRank, minRank, maxRank, Ace, King; simpl.
  intros H1 H2 Heq. f_equal; lia.
Qed.

Lemma rankThenSuit_lt (c1 c2 : Card) :
  real_card c1 -> real_card c2 ->
  (rankThenSuit c1 < rankThenSuit c2 <->
   cRank c1 < cRank c2 \/ (cRank c1 = cRank c2 /\ cSuit c1 < cSuit c2)).
Proof.
  unfold real_card, rankThenSuit, Spade, Heart; simpl length. lia.
Qed.

Lemma rankThenSuit_inj (c1 c2 : Card) :
  real_card c1 -> real_card c2 -> rankThenSuit c1 = rankThenSuit c2 -> c1 = c2.
Proof.
  destruct c1 as [s1 r1], c2 as [s2 r2].
  unfold real_card, rankThenSuit, Spade, Heart; simpl.
  intros H1 H2 Heq. f_equal; lia.
Qed.

Lemma BySuitThenByRank_keyed : keyed BySuitThenByRank absRank.
Proof.
  intros cards i j a b Ha Hb. unfold BySuitThenByRank. now rewrite Ha, Hb.
Qed.

Lemma ByRankThenBySuit_keyed : keyed ByRankThenBySuit rankThenSuit.
Proof.
  intros cards i j a b Ha Hb. unfold ByRankThenBySuit. now rewrite Ha, Hb.
Qed.

(** C2. On cards of the four real suits with ranks Ace..King,
    [absRank], the key [Suit * maxRank + Rank], orders by suit and then
    by rank: the key of [c1] is below the key of [c2] exactly when the
    suit of [c1] is the smaller one, or the suits are equal and the rank
    of [c1] is the smaller one.  The key tells any two such cards apart,
    so the order is total, and [BySuitThenByRank] compares the keys of
    the cards at the two positions. *)
Theorem absRank_orders_by_suit_then_rank (c1 c2 : Card) :
  real_card c1 -> real_card c2 ->
  absRank c1 = cSuit c1 * maxRank + cRank c1 /\
  (absRank c1 < absRank c2 <->
   cSuit c1 < cSuit c2 \/ (cSuit c1 = cSuit c2 /\ cRank c1 < cRank c2)) /\
  (absRank c1 = absRank c2 -> c1 = c2) /\
  (absRank c1 < absRank c2 \/ c1 = c2 \/ absRank c2 < absRank c1) /\
  (forall cards i j,
     index cards i = Some c1 -> index cards j = Some c2 ->
     BySuitThenByRank cards i j = Some (absRank c1 <? absRank c2)).
Proof.
  intros H1 H2.
  split; [reflexivity |].
  split; [now apply absRank_lt |].
  split; [now apply absRank_inj |].
  split.
  - destruct (Z.lt_trichotomy (absRank c1) (absRank c2)) as [Hlt | [Heq | Hgt]];
      [now left | right; left; now apply absRank_inj | now right; right].
  - intros cards i j. apply BySuitThenByRank_keyed.
Qed.

Lemma absRank_orders_spade_king_diamond_ace :
  let c1 := mkCard Spade King in
  let c2 := mkCard Diamond Ace in
  absRank c1 = cSuit c1 * maxRank + cRank c1 /\
  (absRank c1 < absRank c2 <->
   cSuit c1 < cSuit c2 \/ (cSuit c1 = cSuit c2 /\ cRank c1 < cRank c2)) /\
  (absRank c1 = absRank c2 -> c1 = c2) /\
  (absRank c1 < absRank c2 \/ c1 = c2 \/ absRank c2 < absRank c1) /\
  (forall cards i j,
     index cards i = Some c1 -> index cards j = Some c2 ->
     BySuitThenByRank cards i j = Some (absRank c1 <? absRank c2)).
Proof.
  apply (absRank_orders_by_suit_then_rank (mkCard Spade King) (mkCard Diamond Ace));
    unfold real_card; simpl; unfold Spade, Heart, Diamond, minRank, maxRank, Ace, King; lia.
Defined.

(** ** Ordered sequences *)

Section Ordered.

Variable key : Card -> Z.

Lemma ascending_ordered_by (cards : list Card) :
  ascending key cards = true -> ordered_by key cards.
Proof.
  intros H. apply Sorted_StronglySorted.
  - intros x y z Hxy Hyz. lia.
  - induction cards as [| a l IH]; [constructor |].
    destruct l as [| b l'].
    + repeat constructor.
    + cbn [ascending] in H. apply andb_prop in H as [Hab Hl].
      constructor; [now apply IH |]. constructor. lia.
Qed.

Lemma ordered_by_head (a b : Card) (l : list Card) :
  ordered_by key (a :: l) -> In b (a :: l) -> key a <= key b.
Proof.
  intros Hs Hin. apply StronglySorted_inv in Hs as [_ Hall].
  destruct Hin as [<- | Hin]; [lia |].
  rewrite Forall_forall in Hall. now apply Hall.
Qed.

(** The cards of a sequence have one order only, when the key tells
    them apart. *)
Lemma ordered_by_unique (l1 l2 : list Card) :
  tells_apart key l1 -> Permutation l1 l2 ->
  ordered_by key l1 -> ordered_by key l2 -> l1 = l2.
Proof.
  revert l2. induction l1 as [| a l1 IH]; intros l2 Hinj Hperm Hs1 Hs2.
  - now apply Permutation_nil in Hperm.
  - destruct l2 as [| b l2].
    { symmetry in Hperm. now apply Permutation_nil in Hperm. }
    assert (Hb : In b (a :: l1)).
    { apply (Permutation_in b (Permutation_sym Hperm)). now left. }
    assert (Ha : In a (b :: l2)).
    { apply (Permutation_in a Hperm). now left. }
    assert (Hab : a = b).
    { apply Hinj; [now left | assumption |].
      pose proof (ordered_by_head _ _ _ Hs1 Hb).
      pose proof (ordered_by_head _ _ _ Hs2 Ha). lia. }
    subst b. f_equal. apply IH.
    + intros x y Hx Hy. apply Hinj; now right.
    + now apply Permutation_cons_inv in Hperm.
    + now apply StronglySorted_inv in Hs1.
    + now apply StronglySorted_inv in Hs2.
Qed.

Lemma tells_apart_perm (l1 l2 : list Card) :
  Permutation l1 l2 -> tells_apart key l1 -> tells_apart key l2.
Proof.
  intros Hperm Hinj a b Ha Hb. apply Hinj.
  - now apply (Permutation_in a (Permutation_sym Hperm)).
  - now apply (Permutation_in b (Permutation_sym Hperm)).
Qed.

(** *** What the contract of [sort.Slice] decides *)

Variable sort_Slice : Sorter.
Hypothesis sort_Slice_ok : sort_contract sort_Slice.

Variable less : Less.
Hypothesis less_keyed : keyed less key.

(** Sorting cards that the key tells apart gives the one ordered
    arrangement of them. *)
Lemma sort_Slice_decided (cards sorted : list Card) :
  tells_apart key cards -> Permutation cards sorted -> ordered_by key sorted ->
  sort_Slice cards less = Some sorted.
Proof.
  intros Hinj Hperm Hs.
  destruct (sort_Slice_ok less key cards less_keyed) as (out & -> & Hp & Ho).
  f_equal. apply ordered_by_unique; auto.
  - now apply (tells_apart_perm cards).
  - now rewrite <- Hp.
Qed.

Lemma sort_Slice_fixes_ordered (cards : list Card) :
  tells_apart key cards -> ordered_by key cards ->
  sort_Slice cards less = Some cards.
Proof. intros Hinj Hs. now apply sort_Slice_decided. Qed.

End Ordered.

(** *** The insertion sort meets the contract *)

Section InsertionSort.

Variable less : Less.
Variable key : Card -> Z.
Hypothesis less_keyed : keyed less key.

Lemma before_keyed (a b : Card) : before less a b = (key a <? key b).
Proof.
  unfold before. now rewrite (less_keyed [a; b] 0 1 a b).
Qed.

Lemma insert_perm (x : Card) (l : list Card) :
  Permutation (x :: l) (insert less x l).
Proof.
  induction l as [| y l IH]; simpl; [reflexivity |].
  destruct (before less y x); [| reflexivity].
  rewrite perm_swap. now constructor.
Qed.

Lemma insert_ordered (x : Card) (l : list Card) :
  ordered_by key l -> ordered_by key (insert less x l).
Proof.
  unfold ordered_by. induction l as [| y l IH]; intros Hs; simpl.
  - repeat constructor.
  - rewrite before_keyed. apply StronglySorted_inv in Hs as [Hl Hall].
    destruct (key y <? key x) eqn:Hyx.
    + apply Z.ltb_lt in Hyx. constructor; [now apply IH |].
      rewrite <- (insert_perm x l). constructor; [lia | assumption].
    + apply Z.ltb_ge in Hyx. constructor; [now constructor |].
      constructor; [assumption |].
      eapply Forall_impl; [| exact Hall]. simpl; intros; lia.
Qed.


Lemma fold_insert_spec (cards : list Card) :
  Permutation cards (fold_right (insert less) [] cards) /\
  ordered_by key (fold_right (insert less) [] cards).
Proof.
  induction cards as [| x cards [Hp Ho]]; simpl.
  - split; [reflexivity | constructor].
  - split; [| now apply insert_ordered].
    rewrite <- insert_perm. now constructor.
Qed.


End InsertionSort.

Lemma insertion_sort_ok : sort_contract insertion_sort.
Proof.
  intros less key cards Hk. unfold insertion_sort. eexists. split; [reflexivity |].
  exact (fold_insert_spec less key Hk cards).
Qed.


(** ** DefaultSort and Sort *)

(** C3. [DefaultSort] is [Sort] applied to [BySuitThenByRank]: on every
    sequence of cards both return the same sequence, whatever
    [sort.Slice] does, and so they are the same option of [New]. *)
Theorem DefaultSort_is_Sort_BySuitThenByRank (sort_Slice : Sorter) :
  (forall cards,
     DefaultSort sort_Slice cards = Sort sort_Slice BySuitThenByRank cards) /\
  DefaultSort sort_Slice = Sort sort_Slice BySuitThenByRank /\
  (forall before after,
     New (before ++ DefaultSort sort_Slice :: after) =
     New (before ++ Sort sort_Slice BySuitThenByRank :: after)).
Proof.
  assert (Hsame : forall cards,
            DefaultSort sort_Slice cards = Sort sort_Slice BySuitThenByRank cards).
  { intros cards. unfold DefaultSort, Sort. reflexivity. }
  split; [exact Hsame |].
  split; [reflexivity |].
  intros before after. unfold New, apply_opts.
  rewrite !fold_left_app. cbn [fold_left].
  destruct (fold_left _ before _) as [cards |]; cbn [bind].
  - now rewrite Hsame.
  - reflexivity.
Qed.

Lemma real_cards_told_apart_by_absRank (cards : list Card) :
  Forall real_card cards -> tells_apart absRank cards.
Proof.
  rewrite Forall_forall. intros Hreal a b Ha Hb. apply absRank_inj; auto.
Qed.

Lemma real_cards_told_apart_by_rankThenSuit (cards : list Card) :
  Forall real_card cards -> tells_apart rankThenSuit cards.
Proof.
  rewrite Forall_forall. intros Hreal a b Ha Hb. apply rankThenSuit_inj; auto.
Qed.

Lemma suit_major_deck_real : Forall real_card suit_major_deck.
Proof. apply Forall_forall. intros c. apply In_suit_major_deck. Qed.

Lemma suit_major_deck_ordered : ordered_by absRank suit_major_deck.
Proof. apply ascending_ordered_by. reflexivity. Qed.



Lemma In_rank_major_deck (c : Card) : In c rank_major_deck <-> real_card c.
Proof.
  unfold rank_major_deck, real_card. rewrite in_flat_map. split.
  - intros (r & Hr & Hc). apply in_map_iff in Hc as (s & <- & Hs). simpl.
    now rewrite <- In_suits, <- In_ranks.
  - intros [Hs Hr]. exists (cRank c). split; [now apply In_ranks |].
    apply in_map_iff. exists (cSuit c). split; [now destruct c |].
    now apply In_suits.
Qed.

Lemma NoDup_rank_major_deck : NoDup rank_major_deck.
Proof.
  apply (NoDup_map_inv rankThenSuit).
  change (map rankThenSuit rank_major_deck) with (map Z.of_nat (seq 0 52)).
  apply Injective_map_NoDup; [exact Nat2Z.inj | apply seq_NoDup].
Qed.

Lemma suit_major_rank_major_perm : Permutation suit_major_deck rank_major_deck.
Proof.
  apply NoDup_Permutation.
  - apply NoDup_suit_major_deck.
  - apply NoDup_rank_major_deck.
  - intros c. now rewrite In_suit_major_deck, In_rank_major_deck.
Qed.

(** C5. On cards of the four real suits with ranks Ace..King,
    [rankThenSuit], the key [(Rank - 1) * len(suits) + Suit], orders by
    rank and then by suit.  Under the contract of [sort.Slice],
    [Sort(ByRankThenBySuit)] turns [New()] into the deck that lists the
    four Aces, then the four Twos, and so on up to the four Kings. *)
Theorem Sort_ByRankThenBySuit_groups_ranks (sort_Slice : Sorter) :
  sort_contract sort_Slice ->
  (forall c1 c2,
     real_card c1 -> real_card c2 ->
     rankThenSuit c1 = (cRank c1 - 1) * 4 + cSuit c1 /\
     (rankThenSuit c1 < rankThenSuit c2 <->
      cRank c1 < cRank c2 \/ (cRank c1 = cRank c2 /\ cSuit c1 < cSuit c2)) /\
     (forall cards i j,
        index cards i = Some c1 -> index cards j = Some c2 ->
        ByRankThenBySuit cards i j = Some (rankThenSuit c1 <? rankThenSuit c2))) /\
  Sort sort_Slice ByRankThenBySuit suit_major_deck = Some rank_major_deck /\
  New [Sort sort_Slice ByRankThenBySuit] = Some rank_major_deck /\
  rank_major_deck =
    flat_map (fun r => [mkCard Spade r; mkCard Diamond r; mkCard Club r; mkCard Heart r])
             ranks /\
  map cRank rank_major_deck = flat_map (fun r => [r; r; r; r]) ranks /\
  (forall i c, nth_error rank_major_deck i = Some c ->
               cRank c = Z.of_nat (i / 4) + 1).
Proof.
  intros Hok.
  assert (Hsort : Sort sort_Slice ByRankThenBySuit suit_major_deck
                  = Some rank_major_deck).
  { apply (sort_Slice_decided rankThenSuit sort_Slice Hok _ ByRankThenBySuit_keyed).
    - apply real_cards_told_apart_by_rankThenSuit, suit_major_deck_real.
    - apply suit_major_rank_major_perm.
    - apply ascending_ordered_by. reflexivity. }
  split.
  { intros c1 c2 H1 H2. split; [reflexivity |].
    split; [now apply rankThenSuit_lt |].
    intros cards i j. apply ByRankThenBySuit_keyed. }
  split; [exact Hsort |].
  split.
  { unfold New. rewrite base_loop_nil, apply_opts_cons, Hsort. reflexivity. }
  split; [reflexivity |].
  split; [reflexivity |].
  intros i c Hi.
  assert (Hlt : (i < 52)%nat).
  { change 52%nat with (length rank_major_deck).
    apply nth_error_Some. now rewrite Hi. }
  do 52 (destruct i as [| i];
         [vm_compute in Hi; injection Hi as <-; reflexivity |]).
  lia.
Qed.

Lemma Sort_ByRankThenBySuit_groups_ranks_insertion_sort :
  Sort insertion_sort ByRankThenBySuit suit_major_deck = Some rank_major_deck /\
  (rankThenSuit (mkCard Heart Ace) < rankThenSuit (mkCard Spade Two) <->
   Ace < Two \/ (Ace = Two /\ Heart < Spade)).
Proof.
  destruct (Sort_ByRankThenBySuit_groups_ranks insertion_sort insertion_sort_ok)
    as (Hkey & Hsort & _).
  split; [exact Hsort |].
  apply (Hkey (mkCard Heart Ace) (mkCard Spade Two));
    unfold real_card; simpl;
    unfold Spade, Heart, minRank, maxRank, Ace, Two, King; lia.
Defined.

(** ** Jokers *)

Lemma jokers_loop_spec (n i : Z) (cards : list Card) :
  jokers_loop n i cards =
  cards ++ map (fun k => mkCard Joker (uint8 (i + Z.of_nat k)))
               (seq 0 (Z.to_nat (n - i))).
Proof.
  funelim (jokers_loop n i cards).
  - rewrite H. rewrite <- app_assoc. f_equal.
    replace (Z.to_nat (n - i)) with (S (Z.to_nat (n - (i + 1)))) by lia.
    cbn [seq map]. rewrite Z.add_0_r. cbn [app]. f_equal.
    rewrite <- seq_shift, map_map. apply map_ext. intros k. do 2 f_equal. lia.
  - replace (Z.to_nat (n - i)) with O by lia. simpl. now rewrite app_nil_r.
Qed.

Lemma Jokers_spec (n : Z) (cards : list Card) :
  Jokers n cards = cards ++ jokers n.
Proof.
  unfold Jokers, jokers. rewrite jokers_loop_spec, Z.sub_0_r. reflexivity.
Qed.

Lemma jokers_length (n : Z) : length (jokers n) = Z.to_nat n.
Proof. unfold jokers. now rewrite length_map, length_seq. Qed.

Lemma jokers_nth (n : Z) (k : nat) :
  (k < Z.to_nat n)%nat ->
  nth_error (jokers n) k = Some (mkCard Joker (Z.of_nat k mod 256)).
Proof.
  intros Hk. unfold jokers.
  rewrite nth_error_map, nth_error_seq.
  destruct (Nat.ltb_spec k (Z.to_nat n)); [reflexivity | lia].
Qed.

Lemma jokers_suit (n : Z) (c : Card) : In c (jokers n) -> cSuit c = Joker.
Proof.
  unfold jokers. intros Hc. now apply in_map_iff in Hc as (k & <- & _).
Qed.

Lemma jokers_rank_uint8 (n : Z) (c : Card) :
  In c (jokers n) -> 0 <= cRank c < 256.
Proof.
  unfold jokers. intros Hc. apply in_map_iff in Hc as (k & <- & _).
  simpl. unfold uint8. apply Z.mod_pos_bound. lia.
Qed.

Lemma jokers_ranks_small (n : Z) :
  n <= 256 -> map cRank (jokers n) = map Z.of_nat (seq 0 (Z.to_nat n)).
Proof.
  intros Hn. unfold jokers. rewrite map_map. apply map_ext_in.
  intros k Hk. apply in_seq in Hk. simpl. unfold uint8.
  apply Z.mod_small. lia.
Qed.

(** C6, as the code has it.  For [n >= 0], [Jokers(n)] returns its input
    followed by [n] cards of suit Joker, the [k]-th of them (from 0)
    with rank [k mod 256], [Rank] being a [uint8].  Up to [n = 256] the
    ranks are distinct and are the numbers of [[0, n)].  [Jokers(3)]
    after [New()] gives 55 cards, three of suit Joker, with ranks 0, 1
    and 2; [Jokers(0)] changes nothing. *)
Theorem Jokers_appends_n_jokers (n : Z) (cards : list Card) :
  0 <= n ->
  Jokers n cards = cards ++ jokers n /\
  Z.of_nat (length (jokers n)) = n /\
  (forall c, In c (jokers n) -> cSuit c = Joker) /\
  (forall k, (k < Z.to_nat n)%nat ->
     nth_error (jokers n) k = Some (mkCard Joker (Z.of_nat k mod 256))) /\
  (n <= 256 ->
     NoDup (map cRank (jokers n)) /\
     forall r, In r (map cRank (jokers n)) <-> 0 <= r < n) /\
  (exists out,
     New [total (Jokers 3)] = Some out /\
     out = suit_major_deck ++ [mkCard Joker 0; mkCard Joker 1; mkCard Joker 2] /\
     length out = 55%nat /\
     count (fun c => cSuit c =? Joker) out = 3%nat) /\
  Jokers 0 cards = cards.
Proof.
  intros Hn.
  split; [apply Jokers_spec |].
  split; [rewrite jokers_length; lia |].
  split; [apply jokers_suit |].
  split; [apply jokers_nth |].
  split.
  { intros Hle. rewrite jokers_ranks_small by assumption. split.
    - apply Injective_map_NoDup; [exact Nat2Z.inj | apply seq_NoDup].
    - intros r. rewrite in_map_iff. split.
      + intros (k & <- & Hk). apply in_seq in Hk. lia.
      + intros Hr. exists (Z.to_nat r). split; [lia |]. apply in_seq. lia. }
  split.
  { eexists. split; [| split; [reflexivity |]].
    - unfold New. rewrite base_loop_nil, apply_opts_cons. unfold total at 1.
      simpl bind. rewrite Jokers_spec. reflexivity.
    - split; reflexivity. }
  rewrite Jokers_spec. apply app_nil_r.
Qed.

Lemma Jokers_appends_two_jokers :
  Jokers 2 [mkCard Spade Ace] = [mkCard Spade Ace] ++ jokers 2 /\
  NoDup (map cRank (jokers 2)).
Proof.
  destruct (Jokers_appends_n_jokers 2 [mkCard Spade Ace] ltac:(lia))
    as (Happ & _ & _ & _ & Hsmall & _).
  split; [exact Happ |]. apply Hsmall. lia.
Defined.

(** C6 as stated fails from [n = 257] on: [Rank(256)] is [Rank(0)], so
    the first and the last of the 257 jokers are the same card, and no
    joker has rank 256. *)
Lemma Jokers_257_repeats_rank_0 :
  nth_error (Jokers 257 []) 0 = Some (mkCard Joker 0) /\
  nth_error (Jokers 257 []) 256 = Some (mkCard Joker 0) /\
  ~ NoDup (map cRank (Jokers 257 [])) /\
  ~ In 256 (map cRank (Jokers 257 [])).
Proof.
  rewrite Jokers_spec. cbn [app].
  split; [reflexivity |].
  split; [reflexivity |].
  split.
  - intros Hnd. rewrite NoDup_nth_error in Hnd.
    specialize (Hnd 0%nat 256%nat).
    rewrite length_map, jokers_length in Hnd.
    assert (H : 0%nat = 256%nat); [| discriminate H].
    apply Hnd; [lia | reflexivity].
  - intros Hin. apply in_map_iff in Hin as (c & Hr & Hc).
    apply jokers_rank_uint8 in Hc. lia.
Qed.

(** ** Deck *)

Lemma deck_loop_spec (n i : Z) (cards ret : list Card) :
  deck_loop n i cards ret = ret ++ copies (Z.to_nat (n - i)) cards.
Proof.
  funelim (deck_loop n i cards ret).
  - rewrite H. rewrite <- app_assoc. f_equal.
    replace (Z.to_nat (n - i)) with (S (Z.to_nat (n - (i + 1)))) by lia.
    reflexivity.
  - replace (Z.to_nat (n - i)) with O by lia. simpl. now rewrite app_nil_r.
Qed.

Lemma Deck_spec (n : Z) (cards : list Card) :
  Deck n cards = copies (Z.to_nat n) cards.
Proof. unfold Deck. now rewrite deck_loop_spec, Z.sub_0_r. Qed.

Lemma copies_length (n : nat) (cards : list Card) :
  length (copies n cards) = (n * length cards)%nat.
Proof.
  unfold copies. induction n as [| n IH]; simpl; [reflexivity |].
  now rewrite length_app, IH.
Qed.

Lemma copies_count_occ (n : nat) (cards : list Card) (c : Card) :
  count_occ Card_eq_dec (copies n cards) c =
  (n * count_occ Card_eq_dec cards c)%nat.
Proof.
  unfold copies. induction n as [| n IH]; simpl; [reflexivity |].
  now rewrite count_occ_app, IH.
Qed.

(** C8. For [n >= 0], [Deck(n)] returns [n] copies of its input one
    after the other: [n] times as many cards, each card [n] times as
    often as in the input, nothing for [n = 0].  [Deck(3)] of 52 cards
    has 156 cards, and a card that is once in the input is three times
    in the output. *)
Theorem Deck_concatenates_n_copies (n : Z) (cards : list Card) :
  0 <= n ->
  Deck n cards = copies (Z.to_nat n) cards /\
  Z.of_nat (length (Deck n cards)) = n * Z.of_nat (length cards) /\
  (forall c, Z.of_nat (count_occ Card_eq_dec (Deck n cards) c) =
             n * Z.of_nat (count_occ Card_eq_dec cards c)) /\
  Deck 0 cards = [] /\
  Deck 1 cards = cards /\
  Deck 3 cards = cards ++ cards ++ cards /\
  (length cards = 52%nat ->
     length (Deck 3 cards) = 156%nat /\
     forall c, count_occ Card_eq_dec cards c = 1%nat ->
               count_occ Card_eq_dec (Deck 3 cards) c = 3%nat).
Proof.
  intros Hn. rewrite !Deck_spec.
  split; [reflexivity |].
  split; [rewrite copies_length; lia |].
  split; [intros c; rewrite copies_count_occ; lia |].
  split; [reflexivity |].
  split; [apply app_nil_r |].
  split.
  { change (Z.to_nat 3) with 3%nat. unfold copies. cbn [repeat concat].
    now rewrite app_nil_r. }
  intros Hlen. split.
  - rewrite copies_length, Hlen. reflexivity.
  - intros c Hc. rewrite copies_count_occ, Hc. reflexivity.
Qed.

Lemma Deck_3_of_New :
  Deck 3 suit_major_deck = copies 3 suit_major_deck /\
  length (Deck 3 suit_major_deck) = 156%nat /\
  count_occ Card_eq_dec (Deck 3 suit_major_deck) (mkCard Heart Queen) = 3%nat.
Proof.
  destruct (Deck_concatenates_n_copies 3 suit_major_deck ltac:(lia))
    as (Hspec & _ & _ & _ & _ & _ & H52).
  destruct (H52 eq_refl) as [Hlen Hocc].
  split; [exact Hspec |]. split; [exact Hlen |].
  apply Hocc. reflexivity.
Defined.

(** C10. For [n < 0] the loops of [Jokers(n)] and [Deck(n)] are not
    entered: [Jokers(n)] returns its input as it is and [Deck(n)] returns
    the empty sequence. *)
Theorem negative_count_loops_do_not_run (n : Z) (cards : list Card) :
  n < 0 ->
  Jokers n cards = cards /\ Deck n cards = [] /\
  (forall ret, deck_loop n 0 cards ret = ret) /\
  (forall i, 0 <= i -> jokers_loop n i cards = cards).
Proof.
  intros Hn. rewrite Jokers_spec, Deck_spec. unfold jokers.
  replace (Z.to_nat n) with O by lia.
  split; [apply app_nil_r |]. split; [reflexivity |]. split.
  - intros ret. rewrite deck_loop_spec.
    replace (Z.to_nat (n - 0)) with O by lia. apply app_nil_r.
  - intros i Hi. rewrite jokers_loop_spec.
    replace (Z.to_nat (n - i)) with O by lia. apply app_nil_r.
Qed.

Lemma negative_count_minus_one :
  Jokers (-1) suit_major_deck = suit_major_deck /\
  Deck (-1) suit_major_deck = [].
Proof.
  destruct (negative_count_loops_do_not_run (-1) suit_major_deck ltac:(lia))
    as (HJ & HD & _).
  split; [exact HJ | exact HD].
Defined.

(** ** Filter *)

Lemma filter_subsequence (p : Card -> bool) (cards : list Card) :
  subsequence (filter p cards) cards.
Proof.
  induction cards as [| c l IH]; simpl; [constructor |].
  destruct (p c); now constructor.
Qed.

Lemma Filter_loop_spec (f : Card -> bool) (cards ret : list Card) :
  fold_left (fun ret card => if negb (f card) then ret ++ [card] else ret)
            cards ret
  = ret ++ filter (fun c => negb (f c)) cards.
Proof.
  revert ret. induction cards as [| c l IH]; intros ret; simpl.
  - now rewrite app_nil_r.
  - rewrite IH. destruct (negb (f c)); [| reflexivity].
    now rewrite <- app_assoc.
Qed.

Lemma Filter_spec (f : Card -> bool) (cards : list Card) :
  Filter f cards = filter (fun c => negb (f c)) cards.
Proof. unfold Filter. now rewrite Filter_loop_spec. Qed.

(** C7. [Filter(f)] returns the cards on which [f] is false, in the
    order they had: [f] says what to leave out.  With an [f] that is
    always true nothing is left, with one that is always false the
    result is the input, and leaving the Hearts out of [New()] gives 39
    cards, none of them a Heart, in the order they had in [New()]. *)
Theorem Filter_keeps_cards_f_rejects (f : Card -> bool) (cards : list Card) :
  Filter f cards = filter (fun c => negb (f c)) cards /\
  (forall c, In c (Filter f cards) <-> In c cards /\ f c = false) /\
  (forall c, count_occ Card_eq_dec (Filter f cards) c =
             if f c then 0%nat else count_occ Card_eq_dec cards c) /\
  subsequence (Filter f cards) cards /\
  Filter (fun _ => true) cards = [] /\
  Filter (fun _ => false) cards = cards /\
  (exists out,
     New [total (Filter (fun c => cSuit c =? Heart))] = Some out /\
     length out = 39%nat /\
     (forall c, In c out -> cSuit c <> Heart) /\
     subsequence out suit_major_deck /\
     out = firstn 39 suit_major_deck).
Proof.
  rewrite !Filter_spec.
  split; [reflexivity |].
  split.
  { intros c. rewrite filter_In, negb_true_iff. reflexivity. }
  split.
  { intros c. induction cards as [| x l IH]; simpl.
    - now destruct (f c).
    - destruct (f x) eqn:Hx; simpl.
      + rewrite IH. destruct (Card_eq_dec x c) as [-> | Hne]; [| reflexivity].
        now rewrite Hx.
      + rewrite IH. destruct (Card_eq_dec x c) as [-> | Hne]; [| reflexivity].
        now rewrite Hx. }
  split; [apply filter_subsequence |].
  split.
  { induction cards as [| x l IH]; simpl; auto. }
  split.
  { induction cards as [| x l IH]; simpl; [reflexivity | now f_equal]. }
  exists (Filter (fun c => cSuit c =? Heart) suit_major_deck).
  split.
  { unfold New. now rewrite base_loop_nil, apply_opts_cons. }
  rewrite Filter_spec.
  split; [reflexivity |].
  split.
  { intros c Hc. apply filter_In in Hc as [_ Hc].
    apply negb_true_iff, Z.eqb_neq in Hc. exact Hc. }
  split; [apply filter_subsequence | reflexivity].
Qed.

(** ** Shuffle *)

Lemma index_in_range (cards : list Card) (i : Z) :
  0 <= i < Z.of_nat (length cards) -> exists a, index cards i = Some a.
Proof.
  intros Hi. unfold index.
  destruct (Z.ltb_spec i 0) as [Hneg | _]; [lia |].
  destruct (nth_error cards (Z.to_nat i)) as [a |] eqn:Ha; [now exists a |].
  apply nth_error_None in Ha. lia.
Qed.

Lemma index_nth_error (cards : list Card) (i : Z) (a : Card) :
  index cards i = Some a -> nth_error cards (Z.to_nat i) = Some a.
Proof. unfold index. now destruct (i <? 0). Qed.

Lemma update_perm (cards : list Card) (n : nat) (a x : Card) :
  nth_error cards n = Some a ->
  Permutation (a :: update cards n x) (x :: cards).
Proof.
  revert n. induction cards as [| y l IH]; intros [| n] Hn; simpl in *;
    try discriminate.
  - injection Hn as ->. apply perm_swap.
  - rewrite perm_swap, (IH n Hn). apply perm_swap.
Qed.

Lemma update_nth_error (cards : list Card) (i j : nat) (b : Card) :
  nth_error cards j = Some b -> nth_error (update cards i b) j = Some b.
Proof.
  revert i j. induction cards as [| y l IH]; intros [| i] [| j] Hj; simpl in *;
    try discriminate; auto.
Qed.

Lemma swap_perm (cards : list Card) (i j : Z) (a b : Card) :
  index cards i = Some a -> index cards j = Some b ->
  exists out, swap cards i j = Some out /\ Permutation cards out.
Proof.
  intros Ha Hb. unfold swap. rewrite Ha, Hb. simpl. eexists. split; [reflexivity |].
  apply index_nth_error in Ha, Hb.
  apply (Permutation_cons_inv (a := b)).
  rewrite <- (update_perm cards (Z.to_nat i) a b Ha).
  symmetry. apply update_perm. now apply update_nth_error.
Qed.

Lemma swaps_perm (swaps : list (Z * Z)) (cards acc : list Card) :
  (forall i j, In (i, j) swaps ->
               0 <= i < Z.of_nat (length cards) /\
               0 <= j < Z.of_nat (length cards)) ->
  Permutation cards acc ->
  exists out,
    fold_left (fun acc ij => cards <- acc ;; swap cards (fst ij) (snd ij))
              swaps (Some acc) = Some out /\
    Permutation cards out.
Proof.
  revert acc. induction swaps as [| [i j] swaps IH]; intros acc Hin Hperm; simpl.
  - now exists acc.
  - destruct (Hin i j (or_introl eq_refl)) as [Hi Hj].
    rewrite (Permutation_length Hperm) in Hi, Hj.
    destruct (index_in_range acc i Hi) as [a Ha].
    destruct (index_in_range acc j Hj) as [b Hb].
    destruct (swap_perm acc i j a b Ha Hb) as (acc' & -> & Hp).
    apply IH.
    + intros i' j' H'. apply Hin. now right.
    + now rewrite Hperm.
Qed.

Lemma Shuffle_perm (rand_Shuffle : Shuffler) (now : Z) (cards : list Card) :
  shuffle_contract rand_Shuffle ->
  exists out, Shuffle rand_Shuffle now cards = Some out /\ Permutation cards out.
Proof.
  intros Hok. unfold Shuffle. apply swaps_perm; [| reflexivity].
  intros i j Hij. exact (Hok _ _ i j Hij).
Qed.

Lemma fisher_yates_from_range (seed : Z) (k : nat) (i j : Z) :
  In (i, j) (fisher_yates_from seed k) -> 1 <= i <= Z.of_nat k /\ 0 <= j <= i.
Proof.
  revert seed. induction k as [| k IH]; intros seed Hin; simpl in Hin.
  - contradiction.
  - destruct Hin as [Heq | Hin].
    + injection Heq as <- <-.
      pose proof (Z.mod_pos_bound (lcg seed) (Z.of_nat (S k) + 1) ltac:(lia)).
      lia.
    + apply IH in Hin. lia.
Qed.

Lemma fisher_yates_ok : shuffle_contract fisher_yates.
Proof.
  intros seed n i j Hin. unfold fisher_yates in Hin.
  apply fisher_yates_from_range in Hin. lia.
Qed.

(** C9. Whatever the clock reads and whichever positions [rand.Shuffle]
    then exchanges, [Shuffle] returns, and what it returns is its input
    in another order: as many cards, each card as often.  [Shuffle]
    after [New()] gives 52 cards that [DefaultSort] turns into what it
    turns [New()] into. *)
Theorem Shuffle_permutes
  (sort_Slice : Sorter) (rand_Shuffle : Shuffler) (now : Z) (cards : list Card) :
  sort_contract sort_Slice ->
  shuffle_contract rand_Shuffle ->
  (exists out,
     Shuffle rand_Shuffle now cards = Some out /\
     Permutation cards out /\
     length out = length cards /\
     forall c, count_occ Card_eq_dec out c = count_occ Card_eq_dec cards c) /\
  (exists out,
     New [Shuffle rand_Shuffle now] = Some out /\
     Permutation suit_major_deck out /\
     length out = 52%nat /\
     DefaultSort sort_Slice out = DefaultSort sort_Slice suit_major_deck /\
     DefaultSort sort_Slice out = Some suit_major_deck).
Proof.
  intros Hsort Hshuf. split.
  - destruct (Shuffle_perm rand_Shuffle now cards Hshuf) as (out & Hout & Hp).
    exists out. split; [exact Hout |]. split; [exact Hp |].
    split; [symmetry; now apply Permutation_length |].
    intros c. symmetry. revert c. now apply Permutation_count_occ.
  - destruct (Shuffle_perm rand_Shuffle now suit_major_deck Hshuf)
      as (out & Hout & Hp).
    exists out.
    assert (Hsorted : DefaultSort sort_Slice out = Some suit_major_deck).
    { apply (sort_Slice_decided absRank sort_Slice Hsort _ BySuitThenByRank_keyed).
      - apply (tells_apart_perm absRank suit_major_deck); [exact Hp |].
        apply real_cards_told_apart_by_absRank, suit_major_deck_real.
      - now symmetry.
      - apply suit_major_deck_ordered. }
    split.
    { unfold New. now rewrite base_loop_nil, apply_opts_cons, Hout. }
    split; [exact Hp |].
    split; [now rewrite <- (Permutation_length Hp) |].
    split; [| exact Hsorted].
    rewrite Hsorted. symmetry.
    apply (sort_Slice_fixes_ordered absRank sort_Slice Hsort _ BySuitThenByRank_keyed).
    + apply real_cards_told_apart_by_absRank, suit_major_deck_real.
    + apply suit_major_deck_ordered.
Qed.

Lemma Shuffle_permutes_fisher_yates :
  (exists out,
     Shuffle fisher_yates 2018 (Jokers 2 suit_major_deck) = Some out /\
     Permutation (Jokers 2 suit_major_deck) out /\
     length out = length (Jokers 2 suit_major_deck) /\
     forall c, count_occ Card_eq_dec out c =
               count_occ Card_eq_dec (Jokers 2 suit_major_deck) c) /\
  (exists out,
     New [Shuffle fisher_yates 2018] = Some out /\
     Permutation suit_major_deck out /\
     length out = 52%nat /\
     DefaultSort insertion_sort out = DefaultSort insertion_sort suit_major_deck /\
     DefaultSort insertion_sort out = Some suit_major_deck).
Proof.
  apply (Shuffle_permutes insertion_sort fisher_yates 2018
           (Jokers 2 suit_major_deck)).
  - exact insertion_sort_ok.
  - exact fisher_yates_ok.
Defined.

(** * Further properties *)

(** ** Card.String *)

Lemma append_space_split (r1 r2 t1 t2 : string) :
  no_space r1 = true -> no_space r2 = true ->
  (r1 ++ String " " t1)%string = (r2 ++ String " " t2)%string ->
  r1 = r2 /\ t1 = t2.
Proof.
  revert r2. induction r1 as [| c r1 IH]; intros [| d r2] H1 H2 Heq;
    cbn [append no_space] in *.
  - now injection Heq.
  - injection Heq as <- _. discriminate H2.
  - injection Heq as -> _. discriminate H1.
  - injection Heq as <- Heq.
    apply andb_prop in H1 as [_ H1]. apply andb_prop in H2 as [_ H2].
    destruct (IH r2 H1 H2 Heq) as [-> ->]. now split.
Qed.

Lemma append_s_inj (s1 s2 : string) :
  (s1 ++ "s")%string = (s2 ++ "s")%string -> s1 = s2.
Proof.
  revert s2. induction s1 as [| c s1 IH]; intros [| d s2] Heq;
    cbn [append] in *.
  - reflexivity.
  - injection Heq as _ Heq. destruct s2; discriminate Heq.
  - injection Heq as _ Heq. destruct s1; discriminate Heq.
  - injection Heq as <- Heq. f_equal. now apply IH.
Qed.

Lemma no_space_append_space (r t : string) (s : string) :
  no_space s = true -> (r ++ String " " t)%string <> s.
Proof.
  revert s. induction r as [| c r IH]; intros [| d s] Hs Heq;
    cbn [append no_space] in *; try discriminate Heq.
  - injection Heq as <- _. discriminate Hs.
  - injection Heq as _ Heq. apply andb_prop in Hs as [_ Hs].
    exact (IH s Hs Heq).
Qed.

(** X1. [Card.String] prints a card of suit Joker as the label of
    Joker alone, whatever its rank, so it does not tell jokers apart;
    every other card prints as its rank label, [" of "], its suit label
    and ["s"].  Provided the generated labels are distinct, the rank
    labels hold no space and neither does the label of Joker, it tells
    the cards of the four real suits apart and never prints one of them
    like a joker. *)
Theorem Card_String_tells_real_cards_apart_not_jokers
  (Suit_String : Suit -> string) (Rank_String : Rank -> string) :
  (forall r, In r ranks -> no_space (Rank_String r) = true) ->
  (forall r1 r2, In r1 ranks -> In r2 ranks ->
                 Rank_String r1 = Rank_String r2 -> r1 = r2) ->
  (forall s1 s2, In s1 suits -> In s2 suits ->
                 Suit_String s1 = Suit_String s2 -> s1 = s2) ->
  no_space (Suit_String Joker) = true ->
  (forall j,
     cSuit j = Joker ->
     Card_String Suit_String Rank_String j = Suit_String Joker) /\
  (forall c,
     cSuit c <> Joker ->
     Card_String Suit_String Rank_String c =
     (Rank_String (cRank c) ++ " of " ++ Suit_String (cSuit c) ++ "s")%string) /\
  (forall c1 c2,
     real_card c1 -> real_card c2 ->
     Card_String Suit_String Rank_String c1 =
     Card_String Suit_String Rank_String c2 -> c1 = c2) /\
  (forall c j,
     real_card c -> cSuit j = Joker ->
     Card_String Suit_String Rank_String c <>
     Card_String Suit_String Rank_String j) /\
  (forall j1 j2,
     cSuit j1 = Joker -> cSuit j2 = Joker ->
     Card_String Suit_String Rank_String j1 =
     Card_String Suit_String Rank_String j2).
Proof.
  intros Hns Hrank Hsuit Hjoker.
  assert (Hj : forall j, cSuit j = Joker ->
            Card_String Suit_String Rank_String j = Suit_String Joker).
  { intros j Hs. unfold Card_String. now rewrite Hs, Z.eqb_refl. }
  assert (Hother : forall c, cSuit c <> Joker ->
            Card_String Suit_String Rank_String c =
            (Rank_String (cRank c) ++ " of " ++ Suit_String (cSuit c) ++ "s")%string).
  { intros c Hs. unfold Card_String.
    destruct (Z.eqb_spec (cSuit c) Joker) as [He | _]; [contradiction | reflexivity]. }
  assert (Hreal : forall c, real_card c ->
            Card_String Suit_String Rank_String c =
            (Rank_String (cRank c) ++
             String " " ("of " ++ Suit_String (cSuit c) ++ "s"))%string).
  { intros c [Hs _]. apply Hother. unfold Joker, Heart in *. lia. }
  split; [exact Hj |]. split; [exact Hother |].
  split; [| split].
  - intros c1 c2 H1 H2 Heq.
    rewrite (Hreal c1 H1), (Hreal c2 H2) in Heq.
    pose proof H1 as [Hs1 Hr1]. pose proof H2 as [Hs2 Hr2].
    apply In_suits in Hs1, Hs2. apply In_ranks in Hr1, Hr2.
    apply append_space_split in Heq as [Hr Ht]; auto.
    cbn [append] in Ht. injection Ht as Ht. apply append_s_inj in Ht.
    destruct c1 as [s1 r1], c2 as [s2 r2]; simpl in *.
    f_equal; auto.
  - intros c j Hc Hs. rewrite (Hreal c Hc), (Hj j Hs).
    now apply no_space_append_space.
  - intros j1 j2 H1 H2. now rewrite (Hj j1 H1), (Hj j2 H2).
Qed.

Lemma constant_names_no_space (r : Rank) :
  In r ranks -> no_space (constant_name_of_Rank r) = true.
Proof.
  intros Hr. simpl in Hr.
  repeat destruct Hr as [<- | Hr]; try reflexivity. contradiction.
Qed.

Lemma constant_names_of_ranks_differ (r1 r2 : Rank) :
  In r1 ranks -> In r2 ranks ->
  constant_name_of_Rank r1 = constant_name_of_Rank r2 -> r1 = r2.
Proof.
  intros H1 H2. simpl in H1, H2.
  repeat destruct H1 as [<- | H1]; try contradiction;
    repeat destruct H2 as [<- | H2]; try contradiction;
    intros Heq; try reflexivity; discriminate Heq.
Qed.

Lemma constant_names_of_suits_differ (s1 s2 : Suit) :
  In s1 suits -> In s2 suits ->
  constant_name_of_Suit s1 = constant_name_of_Suit s2 -> s1 = s2.
Proof.
  intros H1 H2. simpl in H1, H2.
  repeat destruct H1 as [<- | H1]; try contradiction;
    repeat destruct H2 as [<- | H2]; try contradiction;
    intros Heq; try reflexivity; discriminate Heq.
Qed.

Lemma Card_String_with_constant_names :
  Card_String constant_name_of_Suit constant_name_of_Rank (mkCard Joker 1)
    = "Joker"%string /\
  Card_String constant_name_of_Suit constant_name_of_Rank (mkCard Heart Queen)
    = "Queen of Hearts"%string /\
  Card_String constant_name_of_Suit constant_name_of_Rank (mkCard Heart Queen)
    <> Card_String constant_name_of_Suit constant_name_of_Rank (mkCard Joker 1) /\
  Card_String constant_name_of_Suit constant_name_of_Rank (mkCard Joker 0)
    = Card_String constant_name_of_Suit constant_name_of_Rank (mkCard Joker 1).
Proof.
  destruct (Card_String_tells_real_cards_apart_not_jokers
              constant_name_of_Suit constant_name_of_Rank
              constant_names_no_space constant_names_of_ranks_differ
              constant_names_of_suits_differ eq_refl)
    as (Hlabel & Hprint & _ & Hjoker & Hsame).
  split; [exact (Hlabel (mkCard Joker 1) eq_refl) |].
  split; [apply (Hprint (mkCard Heart Queen)); discriminate |].
  split.
  - apply Hjoker; [| reflexivity].
    unfold real_card; simpl.
    unfold Spade, Heart, minRank, maxRank, Ace, Queen, King; lia.
  - apply Hsame; reflexivity.
Defined.

(** ** The comparators as orderings *)

Lemma index_Some_range (cards : list Card) (i : Z) (a : Card) :
  index cards i = Some a -> 0 <= i < Z.of_nat (length cards).
Proof.
  unfold index. destruct (Z.ltb_spec i 0) as [| Hi]; [discriminate |].
  intros Ha. assert (Hlt : (Z.to_nat i < length cards)%nat).
  { apply nth_error_Some. now rewrite Ha. }
  lia.
Qed.

Lemma index_None_range (cards : list Card) (i : Z) :
  index cards i = None -> ~ 0 <= i < Z.of_nat (length cards).
Proof.
  intros Hn Hi. destruct (index_in_range cards i Hi) as [a Ha]. congruence.
Qed.

Section KeyedComparator.

Variable key : Card -> Z.
Variable less : Less.
Hypothesis less_def : forall cards i j,
  less cards i j =
  (a <- index cards i ;; b <- index cards j ;; Some (key a <? key b)).

Lemma keyed_comparator_strict_weak : strict_weak_positional less.
Proof.
  intros cards i j k. rewrite !less_def.
  pose proof (index_Some_range cards i) as HiS.
  pose proof (index_None_range cards i) as HiN.
  pose proof (index_Some_range cards j) as HjS.
  pose proof (index_None_range cards j) as HjN.
  destruct (index cards i) as [a |]; destruct (index cards j) as [b |];
    destruct (index cards k) as [c |]; cbn [bind];
    try specialize (HiS _ eq_refl); try specialize (HiN eq_refl);
    try specialize (HjS _ eq_refl); try specialize (HjN eq_refl);
    (split; [split; intros; [try discriminate; tauto
                            | try reflexivity; exfalso; tauto] |]);
    repeat split; intros;
    repeat match goal with
           | H : Some _ = Some _ |- _ => injection H as H
           end;
    try discriminate;
    repeat match goal with
           | H : context [?x <? ?y] |- _ => destruct (Z.ltb_spec x y)
           | |- context [?x <? ?y] => destruct (Z.ltb_spec x y)
           end;
    try discriminate; try reflexivity; lia.
Qed.

End KeyedComparator.

(** X2. [BySuitThenByRank] and [ByRankThenBySuit] give [sort.Slice] what
    it asks for on every slice, jokers and repeated cards included: the
    closure panics exactly when a position is out of the slice, and on
    the positions of the slice it is irreflexive, asymmetric and
    transitive, and being incomparable is transitive. *)
Theorem comparators_are_strict_weak_orderings :
  strict_weak_positional BySuitThenByRank /\
  strict_weak_positional ByRankThenBySuit.
Proof.
  split.
  - apply (keyed_comparator_strict_weak absRank). reflexivity.
  - apply (keyed_comparator_strict_weak rankThenSuit). reflexivity.
Qed.

(** ** Where sorting puts the jokers *)

Lemma ordered_by_positions (key : Card -> Z) (l : list Card)
      (p q : nat) (a b : Card) :
  ordered_by key l -> (p < q)%nat ->
  nth_error l p = Some a -> nth_error l q = Some b -> key a <= key b.
Proof.
  intros Hs. revert p q. induction Hs as [| x l Hl IH Hall]; intros p q Hpq Ha Hb.
  - destruct p; discriminate Ha.
  - destruct q as [| q]; [lia |]. simpl in Hb. destruct p as [| p]; simpl in Ha.
    + injection Ha as <-. rewrite Forall_forall in Hall.
      apply Hall. eapply nth_error_In, Hb.
    + apply (IH p q); [lia | assumption | assumption].
Qed.

(** In what [sort.Slice] leaves, a card with a smaller key stands before
    a card with a larger one. *)
Lemma sort_Slice_positions (sort_Slice : Sorter) (less : Less) (key : Card -> Z)
      (cards out : list Card) (p q : nat) (a b : Card) :
  sort_contract sort_Slice -> keyed less key ->
  sort_Slice cards less = Some out ->
  nth_error out p = Some a -> nth_error out q = Some b ->
  key a < key b -> (p < q)%nat.
Proof.
  intros Hok Hk Hout Ha Hb Hlt.
  destruct (Hok less key cards Hk) as (out' & Hout' & _ & Hord).
  rewrite Hout in Hout'. injection Hout' as <-.
  destruct (Nat.lt_trichotomy p q) as [Hpq | [Hpq | Hpq]]; [assumption | |].
  - subst q. rewrite Ha in Hb. injection Hb as <-. lia.
  - pose proof (ordered_by_positions key out q p b a Hord Hpq Hb Ha). lia.
Qed.

(** X3. Under the suit-major key a joker never ranks below a real card,
    and it ranks level with one only as the joker of rank 0 against the
    King of Hearts.  So in what [DefaultSort] returns every real card
    stands before every joker, that one pair apart. *)
Theorem DefaultSort_puts_jokers_last (sort_Slice : Sorter) :
  sort_contract sort_Slice ->
  (forall c j,
     real_card c -> cSuit j = Joker -> 0 <= cRank j < 256 ->
     absRank c <= absRank j /\
     (absRank c = absRank j <-> c = mkCard Heart King /\ j = mkCard Joker 0)) /\
  (forall cards out p q c j,
     DefaultSort sort_Slice cards = Some out ->
     nth_error out p = Some c -> nth_error out q = Some j ->
     real_card c -> cSuit j = Joker -> 0 <= cRank j < 256 ->
     ~ (c = mkCard Heart King /\ j = mkCard Joker 0) ->
     (p < q)%nat).
Proof.
  intros Hok.
  assert (Hkey : forall c j,
     real_card c -> cSuit j = Joker -> 0 <= cRank j < 256 ->
     absRank c <= absRank j /\
     (absRank c = absRank j <-> c = mkCard Heart King /\ j = mkCard Joker 0)).
  { intros [s r] [sj rj]. unfold real_card, absRank; simpl.
    unfold Spade, Heart, Joker, minRank, maxRank, Ace, King.
    intros [Hs Hr] -> Hj. split; [lia |]. split.
    - intros Heq. split; f_equal; lia.
    - intros [[= -> ->] [= ->]]. reflexivity. }
  split; [exact Hkey |].
  intros cards out p q c j Hout Hc Hj Hreal Hsuit Hrank Hpair.
  apply (sort_Slice_positions sort_Slice BySuitThenByRank absRank cards out p q c j);
    auto using BySuitThenByRank_keyed.
  destruct (Hkey c j Hreal Hsuit Hrank) as [Hle Heq].
  destruct (Z.eq_dec (absRank c) (absRank j)) as [He | Hne]; [| lia].
  apply Heq in He. contradiction.
Qed.

Lemma DefaultSort_puts_jokers_last_insertion_sort :
  (forall c j,
     real_card c -> cSuit j = Joker -> 0 <= cRank j < 256 ->
     absRank c <= absRank j /\
     (absRank c = absRank j <-> c = mkCard Heart King /\ j = mkCard Joker 0)) /\
  (forall cards out p q c j,
     DefaultSort insertion_sort cards = Some out ->
     nth_error out p = Some c -> nth_error out q = Some j ->
     real_card c -> cSuit j = Joker -> 0 <= cRank j < 256 ->
     ~ (c = mkCard Heart King /\ j = mkCard Joker 0) ->
     (p < q)%nat).
Proof.
  apply (DefaultSort_puts_jokers_last insertion_sort). exact insertion_sort_ok.
Defined.

(** X4. Under the rank-major key the joker of rank [r] ranks level with
    the Spade of rank [r + 1]: the key does not tell the cards of
    [New(Jokers(n))] apart for [n >= 1], and in what
    [Sort(ByRankThenBySuit)] returns a joker stands after the real cards
    of ranks up to its own and before those of higher ranks, the Spade
    of the next rank apart. *)
Theorem Sort_ByRankThenBySuit_scatters_jokers (sort_Slice : Sorter) :
  sort_contract sort_Slice ->
  (forall r, rankThenSuit (mkCard Joker r) = rankThenSuit (mkCard Spade (r + 1))) /\
  (forall n, 1 <= n -> ~ tells_apart rankThenSuit (Jokers n suit_major_deck)) /\
  (forall cards out p q c j,
     Sort sort_Slice ByRankThenBySuit cards = Some out ->
     nth_error out p = Some c -> nth_error out q = Some j ->
     real_card c -> cSuit j = Joker ->
     (cRank c <= cRank j -> (p < q)%nat) /\
     (cRank j + 1 < cRank c \/ (cRank c = cRank j + 1 /\ Spade < cSuit c) ->
      (q < p)%nat)).
Proof.
  intros Hok.
  split.
  { intros r. unfold rankThenSuit, Joker, Spade; simpl. lia. }
  split.
  { intros n Hn Hinj.
    assert (Heq : mkCard Joker 0 = mkCard Spade Ace); [| discriminate Heq].
    apply Hinj.
    - rewrite Jokers_spec. apply in_or_app. right.
      unfold jokers. apply in_map_iff. exists 0%nat. split; [reflexivity |].
      apply in_seq. lia.
    - rewrite Jokers_spec. apply in_or_app. left.
      apply In_suit_major_deck. unfold real_card; simpl.
      unfold Spade, Heart, minRank, maxRank, Ace, King. lia.
    - reflexivity. }
  intros cards out p q [s r] [sj rj] Hout Hc Hj [Hs Hr] Hsuit.
  simpl in Hs, Hr, Hsuit. subst sj. unfold Spade, Heart in Hs. split.
  - intros Hle. simpl in Hle.
    apply (sort_Slice_positions sort_Slice ByRankThenBySuit rankThenSuit
             cards out p q _ _ Hok ByRankThenBySuit_keyed Hout Hc Hj).
    unfold rankThenSuit, Joker; simpl. lia.
  - intros H. simpl in H.
    apply (sort_Slice_positions sort_Slice ByRankThenBySuit rankThenSuit
             cards out q p _ _ Hok ByRankThenBySuit_keyed Hout Hj Hc).
    unfold rankThenSuit, Joker, Spade in *; simpl. lia.
Qed.

Lemma Sort_ByRankThenBySuit_scatters_jokers_insertion_sort :
  rankThenSuit (mkCard Joker 0) = rankThenSuit (mkCard Spade Ace) /\
  ~ tells_apart rankThenSuit (Jokers 1 suit_major_deck).
Proof.
  destruct (Sort_ByRankThenBySuit_scatters_jokers insertion_sort insertion_sort_ok)
    as (Hkey & Hnot & _).
  split; [exact (Hkey 0) | apply Hnot; lia].
Defined.

(** ** How the options compose *)

Lemma copies_add (a b : nat) (l : list Card) :
  copies (a + b) l = copies a l ++ copies b l.
Proof. unfold copies. now rewrite repeat_app, concat_app. Qed.

Lemma copies_nil (k : nat) : copies k [] = [].
Proof. unfold copies. induction k; simpl; auto. Qed.

Lemma copies_mul (a b : nat) (l : list Card) :
  copies (a * b) l = copies a (copies b l).
Proof.
  induction a as [| a IH]; [reflexivity |].
  change (S a * b)%nat with (b + a * b)%nat. rewrite copies_add, IH.
  reflexivity.
Qed.

Lemma copies_In (k : nat) (l : list Card) (c : Card) :
  In c (copies k l) <-> (0 < k)%nat /\ In c l.
Proof.
  induction k as [| k IH].
  - simpl. split; [contradiction | lia].
  - change (copies (S k) l) with (l ++ copies k l).
    rewrite in_app_iff, IH. split; [| tauto].
    intros [H | [_ H]]; split; auto; lia.
Qed.

Lemma filter_copies (p : Card -> bool) (k : nat) (l : list Card) :
  filter p (copies k l) = copies k (filter p l).
Proof.
  induction k as [| k IH]; [reflexivity |].
  change (copies (S k) l) with (l ++ copies k l).
  rewrite filter_app, IH. reflexivity.
Qed.

Lemma count_app (p : Card -> bool) (a b : list Card) :
  count p (a ++ b) = (count p a + count p b)%nat.
Proof. unfold count. now rewrite filter_app, length_app. Qed.

Lemma count_copies (p : Card -> bool) (k : nat) (l : list Card) :
  count p (copies k l) = (k * count p l)%nat.
Proof. unfold count. now rewrite filter_copies, copies_length. Qed.

Lemma filter_jokers_is_joker (n : Z) : filter is_joker (jokers n) = jokers n.
Proof.
  apply forallb_filter_id, forallb_forall. intros c Hc.
  apply jokers_suit in Hc. unfold is_joker. now rewrite Hc.
Qed.

Lemma filter_jokers_not_joker (n : Z) :
  filter (fun c => negb (is_joker c)) (jokers n) = [].
Proof.
  unfold jokers. induction (seq 0 (Z.to_nat n)) as [| k l IH]; [reflexivity |].
  simpl. exact IH.
Qed.

Lemma filter_without_jokers (cards : list Card) :
  (forall c, In c cards -> cSuit c <> Joker) ->
  filter (fun c => negb (is_joker c)) cards = cards.
Proof.
  intros H. apply forallb_filter_id, forallb_forall. intros c Hc.
  apply negb_true_iff, Z.eqb_neq. now apply H.
Qed.

Lemma count_jokers (n : Z) : count is_joker (jokers n) = Z.to_nat n.
Proof. unfold count. now rewrite filter_jokers_is_joker, jokers_length. Qed.

(** X5. Filters compose: filtering by [g] and then by [f] leaves out
    what either leaves out, in either order; filtering twice by the same
    [f] changes nothing more; a filter works through a sequence part by
    part and never returns more cards than it was given. *)
Theorem Filter_composes (f g : Card -> bool) (a b : list Card) :
  Filter f (Filter g a) = Filter (fun c => g c || f c) a /\
  Filter f (Filter g a) = Filter g (Filter f a) /\
  Filter f (Filter f a) = Filter f a /\
  Filter f (a ++ b) = Filter f a ++ Filter f b /\
  (length (Filter f a) <= length a)%nat.
Proof.
  rewrite !Filter_spec.
  assert (Hcomp : forall f g : Card -> bool,
            filter (fun c => negb (f c)) (filter (fun c => negb (g c)) a) =
            filter (fun c => negb (g c || f c)) a).
  { intros f' g'. induction a as [| x l IH]; [reflexivity |]. simpl.
    destruct (g' x); simpl; [exact IH |].
    destruct (f' x); simpl; [exact IH | now f_equal]. }
  split; [apply Hcomp |].
  split.
  { rewrite !Hcomp. apply filter_ext. intros c. now rewrite orb_comm. }
  split.
  { rewrite Hcomp. apply filter_ext. intros c. now rewrite orb_diag. }
  split; [apply filter_app | apply filter_length_le].
Qed.

(** X6. For counts that are not negative, [Deck(m)] after [Deck(n)] is
    [Deck(m * n)].  [Deck(n)] of no cards is no cards, and a card is in
    [Deck(n)] of a sequence exactly when [n] is positive and the card is
    in the sequence. *)
Theorem Deck_composes (m n : Z) (cards : list Card) :
  0 <= m -> 0 <= n ->
  Deck m (Deck n cards) = Deck (m * n) cards /\
  Deck n [] = [] /\
  (forall c, In c (Deck n cards) <-> 0 < n /\ In c cards).
Proof.
  intros Hm Hn. rewrite !Deck_spec.
  split.
  { rewrite Z2Nat.inj_mul by assumption. symmetry. apply copies_mul. }
  split; [apply copies_nil |].
  intros c. rewrite copies_In. split; intros [H1 H2]; split; auto; lia.
Qed.

Lemma Deck_2_of_Deck_3 :
  Deck 2 (Deck 3 suit_major_deck) = Deck (2 * 3) suit_major_deck /\
  Deck 3 [] = [] /\
  (forall c, In c (Deck 3 suit_major_deck) <-> 0 < 3 /\ In c suit_major_deck).
Proof.
  apply (Deck_composes 2 3 suit_major_deck); lia.
Defined.

(** X7. [Filter] and [Deck] commute, for every count: leaving cards out
    of the copies is copying what is left. *)
Theorem Filter_Deck_commute (f : Card -> bool) (n : Z) (cards : list Card) :
  Filter f (Deck n cards) = Deck n (Filter f cards).
Proof.
  rewrite !Deck_spec, !Filter_spec. apply filter_copies.
Qed.

(** X8. Leaving the jokers out undoes [Jokers(n)] for every [n]: what is
    left is the input without the jokers it already had, so the input
    itself when it had none, and [New(Jokers(n), Filter(joker))] is
    [New()]. *)
Theorem Filter_jokers_undoes_Jokers (n : Z) (cards : list Card) :
  Filter is_joker (Jokers n cards) = Filter is_joker cards /\
  ((forall c, In c cards -> cSuit c <> Joker) ->
   Filter is_joker (Jokers n cards) = cards) /\
  New [total (Jokers n); total (Filter is_joker)] = New [].
Proof.
  assert (Hdrop : forall l, Filter is_joker (Jokers n l) = Filter is_joker l).
  { intros l. rewrite !Filter_spec, Jokers_spec, filter_app.
    rewrite filter_jokers_not_joker. apply app_nil_r. }
  split; [apply Hdrop |].
  split.
  { intros Hnone. rewrite Hdrop, Filter_spec. now apply filter_without_jokers. }
  change [total (Jokers n); total (Filter is_joker)]
    with (map total [Jokers n; Filter is_joker]).
  unfold New. rewrite apply_opts_total, base_loop_nil. cbn [fold_left].
  rewrite Hdrop, Filter_spec, filter_without_jokers; [reflexivity |].
  intros c Hc. apply In_suit_major_deck in Hc as [Hs _].
  unfold Joker, Heart in *. lia.
Qed.

(** X9. [Jokers] numbers its jokers from 0 each time it runs: two runs
    append the jokers of the first and then those of the second, so
    after [Jokers(n)] and [Jokers(m)] with [n, m >= 1] the joker of
    rank 0 is there at least twice and the cards are not distinct. *)
Theorem Jokers_twice_repeats_jokers (n m : Z) (cards : list Card) :
  1 <= n -> 1 <= m ->
  Jokers m (Jokers n cards) = cards ++ jokers n ++ jokers m /\
  (2 <= count_occ Card_eq_dec (Jokers m (Jokers n cards)) (mkCard Joker 0%Z))%nat /\
  ~ NoDup (Jokers m (Jokers n cards)).
Proof.
  intros Hn Hm. rewrite !Jokers_spec, <- app_assoc.
  assert (Hin : forall k, 1 <= k -> In (mkCard Joker 0) (jokers k)).
  { intros k Hk. unfold jokers. apply in_map_iff. exists 0%nat.
    split; [reflexivity |]. apply in_seq. lia. }
  assert (Hcount : (2 <= count_occ Card_eq_dec (cards ++ jokers n ++ jokers m)
                               (mkCard Joker 0%Z))%nat).
  { rewrite !count_occ_app.
    pose proof (proj1 (count_occ_In Card_eq_dec _ _) (Hin n Hn)).
    pose proof (proj1 (count_occ_In Card_eq_dec _ _) (Hin m Hm)).
    lia. }
  split; [reflexivity |]. split; [exact Hcount |].
  intros Hnd. rewrite (NoDup_count_occ Card_eq_dec) in Hnd.
  specialize (Hnd (mkCard Joker 0)). lia.
Qed.

Lemma Jokers_1_then_Jokers_1 :
  Jokers 1 (Jokers 1 suit_major_deck) = suit_major_deck ++ jokers 1 ++ jokers 1 /\
  (2 <= count_occ Card_eq_dec (Jokers 1 (Jokers 1 suit_major_deck))
                  (mkCard Joker 0%Z))%nat /\
  ~ NoDup (Jokers 1 (Jokers 1 suit_major_deck)).
Proof.
  apply (Jokers_twice_repeats_jokers 1 1 suit_major_deck); lia.
Defined.

(** X10. The order of [Jokers] and [Deck] matters.  With counts that are
    not negative, [Deck(m)] after [Jokers(n)] copies the jokers along
    with the rest, [m] times the jokers of the input and the [n] new
    ones; [Jokers(n)] after [Deck(m)] adds [n] jokers to the copies.
    From [New()] these are [m * (52 + n)] and [52 * m + n] cards. *)
Theorem Jokers_and_Deck_do_not_commute (n m : Z) (cards : list Card) :
  0 <= n -> 0 <= m ->
  Deck m (Jokers n cards) = copies (Z.to_nat m) (cards ++ jokers n) /\
  Jokers n (Deck m cards) = copies (Z.to_nat m) cards ++ jokers n /\
  Z.of_nat (count is_joker (Deck m (Jokers n cards))) =
    m * (Z.of_nat (count is_joker cards) + n) /\
  Z.of_nat (count is_joker (Jokers n (Deck m cards))) =
    m * Z.of_nat (count is_joker cards) + n /\
  (exists out, New [total (Jokers n); total (Deck m)] = Some out /\
               Z.of_nat (length out) = m * (52 + n)) /\
  (exists out, New [total (Deck m); total (Jokers n)] = Some out /\
               Z.of_nat (length out) = 52 * m + n).
Proof.
  intros Hn Hm. rewrite !Deck_spec, !Jokers_spec.
  split; [reflexivity |]. split; [reflexivity |].
  split.
  { rewrite count_copies, count_app, count_jokers. lia. }
  split.
  { rewrite count_app, count_copies, count_jokers. lia. }
  split.
  - exists (Deck m (Jokers n suit_major_deck)). split.
    + change [total (Jokers n); total (Deck m)]
        with (map total [Jokers n; Deck m]).
      unfold New. now rewrite apply_opts_total, base_loop_nil.
    + rewrite Deck_spec, Jokers_spec, copies_length, length_app, jokers_length.
      change (length suit_major_deck) with 52%nat. lia.
  - exists (Jokers n (Deck m suit_major_deck)). split.
    + change [total (Deck m); total (Jokers n)]
        with (map total [Deck m; Jokers n]).
      unfold New. now rewrite apply_opts_total, base_loop_nil.
    + rewrite Jokers_spec, Deck_spec, length_app, copies_length, jokers_length.
      change (length suit_major_deck) with 52%nat. lia.
Qed.

Lemma Jokers_2_and_Deck_3 :
  Deck 3 (Jokers 2 suit_major_deck) = copies 3 (suit_major_deck ++ jokers 2) /\
  Jokers 2 (Deck 3 suit_major_deck) = copies 3 suit_major_deck ++ jokers 2 /\
  count is_joker (Deck 3 (Jokers 2 suit_major_deck)) = 6%nat /\
  count is_joker (Jokers 2 (Deck 3 suit_major_deck)) = 2%nat.
Proof.
  destruct (Jokers_and_Deck_do_not_commute 2 3 suit_major_deck
              ltac:(lia) ltac:(lia)) as (H1 & H2 & H3 & H4 & _).
  split; [exact H1 |]. split; [exact H2 |].
  change (count is_joker suit_major_deck) with 0%nat in H3, H4.
  split; lia.
Defined.

(** ** Sorting together with the other options *)

Lemma filter_perm (p : Card -> bool) (l1 l2 : list Card) :
  Permutation l1 l2 -> Permutation (filter p l1) (filter p l2).
Proof.
  induction 1 as [| x l l' _ IH | x y l | l l' l'' _ IH1 _ IH2]; simpl.
  - constructor.
  - destruct (p x); [now constructor | assumption].
  - destruct (p x), (p y); try reflexivity. apply perm_swap.
  - now transitivity (filter p l').
Qed.

Lemma filter_ordered_by (key : Card -> Z) (p : Card -> bool) (l : list Card) :
  ordered_by key l -> ordered_by key (filter p l).
Proof.
  unfold ordered_by. induction 1 as [| x l Hl IH Hall]; simpl; [constructor |].
  destruct (p x); [| exact IH]. constructor; [exact IH |].
  rewrite Forall_forall in *. intros y Hy. apply Hall.
  now apply filter_In in Hy.
Qed.

Lemma sort_Slice_any_order (sort_Slice : Sorter) (less : Less) (key : Card -> Z)
      (cards cards' : list Card) :
  sort_contract sort_Slice -> keyed less key ->
  tells_apart key cards -> Permutation cards cards' ->
  sort_Slice cards' less = sort_Slice cards less.
Proof.
  intros Hok Hk Hinj Hperm.
  destruct (Hok less key cards Hk) as (out & Hout & Hp & Ho).
  rewrite Hout.
  apply (sort_Slice_decided key sort_Slice Hok less Hk); auto.
  - now apply (tells_apart_perm key cards).
  - now rewrite <- Hperm.
Qed.

Lemma interleave_perm (g : Card -> list Card) (l : list Card) :
  Permutation (l ++ flat_map g l) (flat_map (fun c => c :: g c) l).
Proof.
  induction l as [| x l IH]; [reflexivity |]. simpl. constructor.
  rewrite Permutation_app_swap_app. now apply Permutation_app_head.
Qed.

Lemma copies_grouped_perm (k : nat) (l : list Card) :
  Permutation (copies k l) (flat_map (fun c => repeat c k) l).
Proof.
  induction k as [| k IH].
  - simpl. induction l as [| x l IHl]; [constructor | exact IHl].
  - change (copies (S k) l) with (l ++ copies k l).
    rewrite IH. apply (interleave_perm (fun c => repeat c k)).
Qed.

Lemma repeat_ordered_by (key : Card -> Z) (x : Card) (m : nat) (rest : list Card) :
  ordered_by key rest -> Forall (fun b => key x <= key b) rest ->
  ordered_by key (repeat x m ++ rest).
Proof.
  unfold ordered_by. intros Hs Hall.
  induction m as [| m IH]; simpl; [exact Hs |].
  constructor; [exact IH |].
  apply Forall_app. split; [| exact Hall].
  apply Forall_forall. intros y Hy. apply repeat_spec in Hy. subst y. lia.
Qed.

Lemma grouped_ordered_by (key : Card -> Z) (k : nat) (l : list Card) :
  ordered_by key l -> ordered_by key (flat_map (fun c => repeat c k) l).
Proof.
  unfold ordered_by at 1. induction 1 as [| x l Hl IH Hall]; simpl; [constructor |].
  apply repeat_ordered_by; [exact IH |].
  rewrite Forall_forall in *. intros y Hy.
  apply in_flat_map in Hy as (c & Hc & Hy).
  apply repeat_spec in Hy. subst y. now apply Hall.
Qed.

(** X11. After [Deck(n)] of a sequence that is in suit-major order and
    whose cards the key tells apart, [DefaultSort] gathers the copies of
    each card: it returns every card [n] times in a row, in the order of
    the sequence.  So does [New(Deck(n), DefaultSort)] with the cards of
    [New()]. *)
Theorem DefaultSort_after_Deck_groups_copies
  (sort_Slice : Sorter) (n : Z) (cards : list Card) :
  sort_contract sort_Slice ->
  tells_apart absRank cards -> ordered_by absRank cards ->
  DefaultSort sort_Slice (Deck n cards) =
    Some (flat_map (fun c => repeat c (Z.to_nat n)) cards) /\
  New [total (Deck n); DefaultSort sort_Slice] =
    Some (flat_map (fun c => repeat c (Z.to_nat n)) suit_major_deck).
Proof.
  intros Hok Hinj Hord.
  assert (Hgroup : forall l,
            tells_apart absRank l -> ordered_by absRank l ->
            DefaultSort sort_Slice (Deck n l) =
            Some (flat_map (fun c => repeat c (Z.to_nat n)) l)).
  { intros l Hl Ho. rewrite Deck_spec.
    apply (sort_Slice_decided absRank sort_Slice Hok _ BySuitThenByRank_keyed).
    - intros a b Ha Hb. apply copies_In in Ha as [_ Ha].
      apply copies_In in Hb as [_ Hb]. now apply Hl.
    - apply copies_grouped_perm.
    - now apply grouped_ordered_by. }
  split; [now apply Hgroup |].
  unfold New. rewrite base_loop_nil, apply_opts_cons. unfold total at 1.
  cbn [bind]. rewrite apply_opts_cons, Hgroup.
  - reflexivity.
  - apply real_cards_told_apart_by_absRank, suit_major_deck_real.
  - apply suit_major_deck_ordered.
Qed.

Lemma DefaultSort_after_Deck_2 :
  DefaultSort insertion_sort (Deck 2 suit_major_deck) =
    Some (flat_map (fun c => repeat c 2) suit_major_deck) /\
  New [total (Deck 2); DefaultSort insertion_sort] =
    Some (flat_map (fun c => repeat c 2) suit_major_deck).
Proof.
  apply (DefaultSort_after_Deck_groups_copies insertion_sort 2 suit_major_deck).
  - exact insertion_sort_ok.
  - apply real_cards_told_apart_by_absRank, suit_major_deck_real.
  - apply suit_major_deck_ordered.
Defined.

(** X12. What a sort returns does not depend on the order of its input,
    when the key of the comparator tells the cards apart: sorting any
    rearrangement of a sequence, and so sorting it after [Shuffle],
    gives what sorting the sequence gives. *)
Theorem Sort_forgets_the_order
  (sort_Slice : Sorter) (rand_Shuffle : Shuffler)
  (less : Less) (key : Card -> Z) (cards : list Card) :
  sort_contract sort_Slice -> shuffle_contract rand_Shuffle ->
  keyed less key -> tells_apart key cards ->
  (forall cards', Permutation cards cards' ->
     Sort sort_Slice less cards' = Sort sort_Slice less cards) /\
  (forall now, exists shuffled,
     Shuffle rand_Shuffle now cards = Some shuffled /\
     Sort sort_Slice less shuffled = Sort sort_Slice less cards).
Proof.
  intros Hsort Hshuf Hk Hinj. split.
  - intros cards' Hperm. unfold Sort.
    now apply (sort_Slice_any_order sort_Slice less key).
  - intros now.
    destruct (Shuffle_perm rand_Shuffle now cards Hshuf) as (out & Hout & Hp).
    exists out. split; [exact Hout |]. unfold Sort.
    now apply (sort_Slice_any_order sort_Slice less key).
Qed.

Lemma Sort_forgets_the_order_of_New :
  (forall cards', Permutation suit_major_deck cards' ->
     Sort insertion_sort ByRankThenBySuit cards' =
     Sort insertion_sort ByRankThenBySuit suit_major_deck) /\
  (forall now, exists shuffled,
     Shuffle fisher_yates now suit_major_deck = Some shuffled /\
     Sort insertion_sort ByRankThenBySuit shuffled =
     Sort insertion_sort ByRankThenBySuit suit_major_deck).
Proof.
  apply (Sort_forgets_the_order insertion_sort fisher_yates
           ByRankThenBySuit rankThenSuit suit_major_deck).
  - exact insertion_sort_ok.
  - exact fisher_yates_ok.
  - exact ByRankThenBySuit_keyed.
  - apply real_cards_told_apart_by_rankThenSuit, suit_major_deck_real.
Defined.

(** X13. Sorting and filtering commute when the key tells the cards that
    are kept apart: the cards [Filter(f)] keeps of a sorted sequence are
    the sorted sequence of the cards it keeps.  So the real cards of a
    deck with jokers come out of [DefaultSort] in their own order
    whether the jokers are left out before or after. *)
Theorem Filter_commutes_with_Sort
  (sort_Slice : Sorter) (less : Less) (key : Card -> Z)
  (f : Card -> bool) (cards out : list Card) :
  sort_contract sort_Slice -> keyed less key ->
  tells_apart key (Filter f cards) ->
  Sort sort_Slice less cards = Some out ->
  Sort sort_Slice less (Filter f cards) = Some (Filter f out).
Proof.
  intros Hok Hk Hinj Hout. unfold Sort in *.
  destruct (Hok less key cards Hk) as (out' & Hout' & Hp & Ho).
  rewrite Hout in Hout'. injection Hout' as <-.
  apply (sort_Slice_decided key sort_Slice Hok less Hk); auto.
  - rewrite !Filter_spec. now apply filter_perm.
  - rewrite Filter_spec. now apply filter_ordered_by.
Qed.

Lemma Filter_commutes_with_Sort_jokers :
  exists out,
    Sort insertion_sort BySuitThenByRank (Jokers 2 suit_major_deck) = Some out /\
    Sort insertion_sort BySuitThenByRank
         (Filter is_joker (Jokers 2 suit_major_deck)) =
    Some (Filter is_joker out).
Proof.
  eexists. split; [vm_compute; reflexivity |].
  apply (Filter_commutes_with_Sort insertion_sort BySuitThenByRank absRank
           is_joker (Jokers 2 suit_major_deck)).
  - exact insertion_sort_ok.
  - exact BySuitThenByRank_keyed.
  - apply real_cards_told_apart_by_absRank.
    change (Filter is_joker (Jokers 2 suit_major_deck)) with suit_major_deck.
    exact suit_major_deck_real.
  - vm_compute; reflexivity.
Defined.

(** ** The exchange of two cards *)

Lemma update_length (l : list Card) (n : nat) (x : Card) :
  length (update l n x) = length l.
Proof.
  revert n. induction l as [| y l IH]; intros [| n]; simpl; auto.
Qed.

Lemma update_nth_same (l : list Card) (n : nat) (x : Card) :
  (n < length l)%nat -> nth_error (update l n x) n = Some x.
Proof.
  revert n. induction l as [| y l IH]; intros [| n] Hn; simpl in *;
    try lia; [reflexivity |]. apply IH. lia.
Qed.

Lemma update_nth_other (l : list Card) (n k : nat) (x : Card) :
  k <> n -> nth_error (update l n x) k = nth_error l k.
Proof.
  revert n k. induction l as [| y l IH]; intros [| n] [| k] Hk; simpl;
    try reflexivity; try congruence.
  apply IH. congruence.
Qed.

Lemma update_same (l : list Card) (n : nat) (a : Card) :
  nth_error l n = Some a -> update l n a = l.
Proof.
  revert n. induction l as [| y l IH]; intros [| n] Hn; simpl in *;
    try discriminate.
  - now injection Hn as ->.
  - f_equal. now apply IH.
Qed.

Lemma nth_error_in_length (l : list Card) (n : nat) (a : Card) :
  nth_error l n = Some a -> (n < length l)%nat.
Proof. intros H. apply nth_error_Some. now rewrite H. Qed.

Lemma exchange_spec (l : list Card) (I J : nat) (a b : Card) :
  nth_error l I = Some a -> nth_error l J = Some b ->
  nth_error (update (update l I b) J a) I = Some b /\
  nth_error (update (update l I b) J a) J = Some a /\
  (forall k, k <> I -> k <> J ->
     nth_error (update (update l I b) J a) k = nth_error l k) /\
  length (update (update l I b) J a) = length l.
Proof.
  intros Ha Hb.
  pose proof (nth_error_in_length l I a Ha) as HI.
  pose proof (nth_error_in_length l J b Hb) as HJ.
  split; [| split; [| split]].
  - destruct (Nat.eq_dec I J) as [<- | Hne].
    + rewrite update_nth_same by (rewrite update_length; lia). congruence.
    + rewrite update_nth_other by assumption. now apply update_nth_same.
  - apply update_nth_same. rewrite update_length. lia.
  - intros k HkI HkJ. now rewrite !update_nth_other.
  - now rewrite !update_length.
Qed.

Lemma exchange_twice (l : list Card) (I J : nat) (a b : Card) :
  nth_error l I = Some a -> nth_error l J = Some b ->
  update (update (update (update l I b) J a) I a) J b = l.
Proof.
  intros Ha Hb.
  destruct (exchange_spec l I J a b Ha Hb) as (_ & _ & Hother & Hlen).
  pose proof (nth_error_in_length l I a Ha) as HI.
  pose proof (nth_error_in_length l J b Hb) as HJ.
  apply nth_error_ext. intros k.
  destruct (Nat.eq_dec k J) as [-> | HkJ].
  - rewrite update_nth_same by (rewrite update_length, Hlen; lia). now symmetry.
  - rewrite update_nth_other by assumption.
    destruct (Nat.eq_dec k I) as [-> | HkI].
    + rewrite update_nth_same by (rewrite Hlen; lia). now symmetry.
    + rewrite update_nth_other by assumption. now apply Hother.
Qed.

Lemma index_nonneg (cards : list Card) (i : Z) :
  0 <= i -> index cards i = nth_error cards (Z.to_nat i).
Proof.
  intros Hi. unfold index. destruct (Z.ltb_spec i 0); [lia | reflexivity].
Qed.

(** X14. The exchange [cards[i], cards[j] = cards[j], cards[i]] panics
    exactly when a position is out of the slice.  Otherwise the slice
    keeps its length, the two positions hold each other's card, every
    other position holds the card it held, and the same exchange once
    more gives the slice back. *)
Theorem swap_exchanges_two_positions (cards : list Card) (i j : Z) :
  (swap cards i j = None <->
   ~ (0 <= i < Z.of_nat (length cards) /\ 0 <= j < Z.of_nat (length cards))) /\
  (forall out,
     swap cards i j = Some out ->
     length out = length cards /\
     index out i = index cards j /\
     index out j = index cards i /\
     (forall k, k <> i -> k <> j -> index out k = index cards k) /\
     swap out i j = Some cards).
Proof.
  unfold swap.
  pose proof (index_Some_range cards i) as HiS.
  pose proof (index_None_range cards i) as HiN.
  pose proof (index_Some_range cards j) as HjS.
  pose proof (index_None_range cards j) as HjN.
  destruct (index cards i) as [a |] eqn:Ha;
    [specialize (HiS _ eq_refl) | specialize (HiN eq_refl)];
    (destruct (index cards j) as [b |] eqn:Hb;
     [specialize (HjS _ eq_refl) | specialize (HjN eq_refl)]);
    cbn [bind];
    try (split; [split; [reflexivity | intros; exfalso; tauto]
                | intros out; discriminate]);
    try (split; [split; [intros _; tauto | reflexivity]
                | intros out; discriminate]).
  split; [split; [discriminate | tauto] |].
  intros out [= <-].
  rewrite index_nonneg in Ha, Hb by lia.
  destruct (exchange_spec cards _ _ a b Ha Hb) as (Hi & Hj & Hother & Hlen).
  split; [exact Hlen |].
  rewrite !(index_nonneg _ i), !(index_nonneg _ j) by lia.
  split; [congruence |]. split; [congruence |]. split.
  - intros k Hki Hkj. unfold index. destruct (k <? 0) eqn:Hk; [reflexivity |].
    apply Z.ltb_ge in Hk. apply Hother; lia.
  - rewrite Hi, Hj. cbn [bind]. f_equal. now apply exchange_twice.
Qed.

(** X15. A sequence of at most one card comes out of [Shuffle] as it
    went in, whatever [rand.Shuffle] does within its contract: there is
    no pair of different positions to exchange. *)
Theorem Shuffle_of_at_most_one_card
  (rand_Shuffle : Shuffler) (now : Z) (cards : list Card) :
  shuffle_contract rand_Shuffle -> (length cards <= 1)%nat ->
  Shuffle rand_Shuffle now cards = Some cards.
Proof.
  intros Hok Hlen. unfold Shuffle.
  assert (Hswaps : forall i j,
            In (i, j) (rand_Shuffle now (Z.of_nat (length cards))) ->
            i = 0 /\ j = 0 /\ exists a, index cards 0 = Some a).
  { intros i j Hin. apply Hok in Hin as [Hi Hj].
    assert (i = 0) by lia. assert (j = 0) by lia. subst i j.
    repeat split. apply index_in_range. lia. }
  induction (rand_Shuffle now (Z.of_nat (length cards))) as [| [i j] swaps IH];
    [reflexivity |].
  cbn [fold_left bind fst snd].
  destruct (Hswaps i j (or_introl eq_refl)) as (-> & -> & a & Ha).
  assert (Hid : swap cards 0 0 = Some cards).
  { unfold swap. rewrite Ha. cbn [bind]. f_equal.
    apply index_nth_error in Ha. rewrite (update_same cards _ a Ha).
    apply (update_same cards _ a Ha). }
  rewrite Hid. apply IH. intros i j Hin. apply Hswaps. now right.
Qed.

Lemma Shuffle_of_one_card :
  Shuffle fisher_yates 2018 [mkCard Spade Ace] = Some [mkCard Spade Ace].
Proof.
  apply (Shuffle_of_at_most_one_card fisher_yates 2018 [mkCard Spade Ace]).
  - exact fisher_yates_ok.
  - simpl. lia.
Defined.
